(** * Maestro orchestration plays: dependency resolution and the play engine

    A shallow embedding of [maestro/plays/__init__.py]: the per-container
    dependency sets computed when a play is constructed, the satisfied
    predicate, the worker body spawned by [register], the join loop of
    [end], and the sequential [FullStatus] walk. *)

From stdpp Require Import gmap strings list fin_maps.

(** ** Python values used by the play engine *)

(** Objects are identified by their address: two containers (services,
    threads) are the same object iff they have the same identity. *)
Abbreviation Container := nat (only parsing).
Abbreviation Service := nat (only parsing).
Abbreviation Tid := nat (only parsing).

(** Exceptions of class [Exception] that the modelled code can raise:
    the [KeyError] of a failing dict lookup or [set.remove], and the
    failures raised by the collaborators (task actions, container
    queries), identified by their message. *)
Inductive Exception :=
| KeyError
| Failure (msg : string).

Global Instance Exception_eq_dec : EqDecision Exception.
Proof. solve_decision. Defined.

Inductive Result (A : Type) :=
| Ok (a : A)
| Raise (e : Exception).
Arguments Ok {A} a.
Arguments Raise {A} e.

Definition bind {A B} (r : Result A) (k : A → Result B) : Result B :=
  match r with
  | Ok a => k a
  | Raise e => Raise e
  end.

Notation "x ←! r ; k" := (bind r (λ x, k))
  (at level 20, r at level 100, k at level 200, right associativity,
   format "x  ←!  r ;  '/' k").

(** ** The entity graph (collaborator objects)

    Containers and services form a cyclic object graph; the attributes the
    plays read are given as look-ups on the object identities. *)
Record Entities := {
  name : Container → string;              (* container.name *)
  service : Container → Service;          (* container.service *)
  requires : Service → gset Service;      (* service.requires *)
  needed_for : Service → gset Service;    (* service.needed_for *)
  containers : Service → list Container   (* service.containers *)
}.

(** [set.remove(x)]: raises [KeyError] when [x] is not a member. *)
Definition set_remove (x : Container) (s : gset Container)
  : Result (gset Container) :=
  if decide (x ∈ s) then Ok (s ∖ {[ x ]}) else Raise KeyError.

Section Dependencies.
Variable E : Entities.

(** The services a container's service points to, in the direction of the
    play: [container.service.requires if self._forward else
    container.service.needed_for]. *)
Definition direction (_forward : bool) (container : Container)
  : gset Service :=
  if _forward then requires E (service E container)
  else needed_for E (service E container).

(** [functools.reduce(lambda x, y: x.union(y),
                      [s.containers for s in deps], set([]))] *)
Definition flatten (deps : gset Service) : gset Container :=
  foldl (λ x y, x ∪ list_to_set y) ∅ (containers E <$> elements deps).

(** One execution of the body of the [for] loop: the loop variable
    [container] is bound to the element, [result] is rebound to a new
    set. *)
Definition gather_body (_containers : gset Container) (_forward : bool)
    (st : gset Container * Container) (container : Container)
  : gset Container * Container :=
  let deps := flatten (direction _forward container) in
  (st.1 ∪ (deps ∩ _containers), container).

(** [BaseOrchestrationPlay._gather_dependencies].  The [for] statement
    takes its iterator from the set object [result] is bound to when the
    loop starts; the assignments in the body bind the name [result] to
    fresh sets and leave that object as it was.  The loop variable shadows
    the parameter, so [result.remove(container)] removes the last element
    the loop visited. *)
Definition _gather_dependencies (_containers : list Container)
    (_forward : bool) (container : Container) : Result (gset Container) :=
  let containers : gset Container := list_to_set _containers in
  let result : gset Container := {[ container ]} in
  let st := foldl (gather_body containers _forward)
                  (result, container) (elements result) in
  set_remove st.2 st.1.

(** [respect_dependencies and self._gather_dependencies(c) or set()]:
    an empty (falsy) gathered set is replaced by a fresh empty set. *)
Definition dependencies_of (_containers : list Container)
    (_forward respect_dependencies : bool) (c : Container)
  : Result (gset Container) :=
  if respect_dependencies then
    g ←! _gather_dependencies _containers _forward c;
    Ok (if decide (g = ∅) then ∅ else g)
  else Ok ∅.

(** [dict((c.name, ...) for c in containers)]: pairs are inserted in
    list order, a later pair with the same key replaces an earlier one. *)
Fixpoint build_dependencies (_containers : list Container)
    (_forward respect_dependencies : bool) (todo : list Container)
    (acc : gmap string (gset Container))
  : Result (gmap string (gset Container)) :=
  match todo with
  | [] => Ok acc
  | c :: todo' =>
      d ←! dependencies_of _containers _forward respect_dependencies c;
      build_dependencies _containers _forward respect_dependencies todo'
        (<[ name E c := d ]> acc)
  end.
End Dependencies.

(** ** Collaborators: output handles and tasks *)

(** Modelled from the spec: the [termoutput] module (the output manager
    and the [OutputFormatter] handles with their [pending] and [commit]
    calls).  A handle is identified by the arguments its prefix is built
    from; the rendering itself is not modelled. *)
Inductive Formatter :=
| Row (order : nat) (container : Container)
    (* prefix '{:>3d}. {:<20.20s} {:<15.15s} {:<20.20s}' *)
| PortRow.
    (* prefix '     >>' *)

(** The texts handed to [pending] and [commit], by the arguments they are
    formatted from. *)
Inductive Message :=
| Waiting                                   (* 'waiting...' *)
| Aborted                                   (* red('aborted!') *)
| CheckingContainer                         (* 'checking container...' *)
| ContainerState (running : bool) (label : string)
| CheckingService                           (* 'checking service...' *)
| ServiceState (running : bool)
| Newline                                   (* '\n' *)
| PortPending (external name : string)
| PortState (ping : bool) (external name : string)
| HostDown.                                 (* red('host down  down') *)

(** Modelled from the spec: a [tasks.Task] binds a container to an action
    and carries an output handle; [run()] performs the action and returns
    or raises. *)
Record Task := {
  task_o : Formatter;                 (* task.o *)
  task_container : Container;         (* task.container *)
  task_run : Result ()                (* the outcome of task.run() *)
}.

(** The value bound to [self._error]: a caught exception object, or the
    string ['Manual abort.'] *)
Inductive ErrorValue :=
| Caught (e : Exception)
| ManualAbort.

Global Instance ErrorValue_eq_dec : EqDecision ErrorValue.
Proof. solve_decision. Defined.

(** The truth value Python gives to [self._error] in [not self._error] and
    [if self._error]: [None] is false; an exception object and the
    non-empty string are true. *)
Definition truthy (v : option ErrorValue) : bool :=
  match v with
  | None => false
  | Some (Caught _) => true
  | Some ManualAbort => true
  end.

Inductive Thread :=
| MainThread
| WorkerThread (t : Tid).

Global Instance Thread_eq_dec : EqDecision Thread.
Proof. solve_decision. Defined.

(** What the play does to the outside world, in the order it happens. *)
Inductive Event :=
| PrintHeader                               (* print(HEADER_FMT.format(..)) *)
| OmStart                                   (* self._om.start() *)
| OmEnd                                     (* self._om.end() *)
| Pending (o : Formatter) (m : Message)     (* o.pending(m) *)
| Commit (o : Formatter) (m : Message)      (* o.commit(m) *)
| RunTask (t : Tid) (c : Container)         (* task.run() is entered *)
| NotifyAll (who : Thread)                  (* self._cv.notifyAll() *)
| StderrWrite (v : ErrorValue).             (* sys.stderr.write(..) *)

Global Instance Formatter_eq_dec : EqDecision Formatter.
Proof. solve_decision. Defined.
Global Instance Message_eq_dec : EqDecision Message.
Proof. solve_decision. Defined.
Global Instance Event_eq_dec : EqDecision Event.
Proof. solve_decision. Defined.

(** ** The play object *)

(** The attributes of a [BaseOrchestrationPlay].  [_cv] is the condition's
    lock, given by the thread that holds it; the threads blocked in
    [wait] are those whose program counter says so. *)
Record Play := {
  _containers : list Container;
  _forward : bool;
  _dependencies : gmap string (gset Container);
  _threads : gset Tid;
  _done : gset Container;
  _error : option ErrorValue;
  _cv : option Thread
}.

Definition set_threads (self : Play) (v : gset Tid) : Play :=
  {| _containers := _containers self; _forward := _forward self;
     _dependencies := _dependencies self; _threads := v;
     _done := _done self; _error := _error self; _cv := _cv self |}.

Definition set_done (self : Play) (v : gset Container) : Play :=
  {| _containers := _containers self; _forward := _forward self;
     _dependencies := _dependencies self; _threads := _threads self;
     _done := v; _error := _error self; _cv := _cv self |}.

Definition set_error (self : Play) (v : option ErrorValue) : Play :=
  {| _containers := _containers self; _forward := _forward self;
     _dependencies := _dependencies self; _threads := _threads self;
     _done := _done self; _error := v; _cv := _cv self |}.

Definition set_cv (self : Play) (v : option Thread) : Play :=
  {| _containers := _containers self; _forward := _forward self;
     _dependencies := _dependencies self; _threads := _threads self;
     _done := _done self; _error := _error self; _cv := v |}.

Section Play.
Variable E : Entities.

(** [BaseOrchestrationPlay.__init__] *)
Definition __init__ (containers : list Container)
    (forward respect_dependencies : bool) : Result Play :=
  deps ←! build_dependencies E containers forward respect_dependencies
            containers ∅;
  Ok {| _containers := containers; _forward := forward;
        _dependencies := deps; _threads := ∅; _done := ∅;
        _error := None; _cv := None |}.

(** [BaseOrchestrationPlay._satisfied]: the subscript raises [KeyError]
    when the container's name is not a key of the dict. *)
Definition _satisfied (self : Play) (container : Container) : Result bool :=
  match _dependencies self !! name E container with
  | None => Raise KeyError
  | Some deps =>
      let missing := deps ∖ _done self in
      Ok (bool_decide (size missing = 0))
  end.


Definition Status__init__ (containers : list Container) : Result Play :=
  __init__ containers true false.

Definition Start__init__ (containers : list Container) : Result Play :=
  __init__ containers true true.

Definition Stop__init__ (containers : list Container) : Result Play :=
  __init__ containers false true.
End Play.

(** ** [FullStatus.run]: the sequential walk *)

(** The container queries the walk makes.  [status] stands for
    [container.status()] followed by the look-up
    [status['State']['Running']]: it raises when either does, gives [None]
    for a falsy status, and the flag otherwise.  A port maps its name to
    [port['external'][1]], whose look-up may raise as well. *)
Record Queries := {
  status : Container → Result (option bool);
  container_id : Container → Result string;            (* container.id *)
  ports : Container → list (string * Result string);   (* container.ports *)
  ping_port : Container → string → Result bool
}.

Section FullStatus.
Variable Q : Queries.

(** [status and status['State']['Running']], as a truth value. *)
Definition running_of (st : option bool) : bool :=
  match st with
  | None => false
  | Some r => r
  end.

(** [status and status['State']['Running'] and container.id[:7] or 'down'] *)
Definition state_label (container : Container) (running : bool)
  : Result string :=
  if running then
    i ←! container_id Q container;
    let short := String.substring 0 7 i in
    Ok (if decide (short = "") then "down" else short)
  else Ok "down".

(** The [for name, port in container.ports.items()] loop.  The state is the
    handle [o] is bound to and the output so far; the result says whether
    the loop ran to its end or raised. *)
Fixpoint inspect_ports (container : Container)
    (items : list (string * Result string)) (o : Formatter)
    (out : list Event) : Formatter * list Event * Result () :=
  match items with
  | [] => (o, out, Ok ())
  | (name, external) :: items' =>
      let out := out ++ [Commit o Newline] in
      let o := PortRow in
      match external with
      | Raise e => (o, out, Raise e)
      | Ok ext =>
          let out := out ++ [Pending o (PortPending ext name)] in
          match ping_port Q container name with
          | Raise e => (o, out, Raise e)
          | Ok ping =>
              inspect_ports container items' o
                (out ++ [Commit o (PortState ping ext name)])
          end
      end
  end.

(** The body of the [try] statement. *)
Definition inspect_try (container : Container) (o : Formatter)
  : Formatter * list Event * Result () :=
  let out := [Pending o CheckingContainer] in
  match status Q container with
  | Raise e => (o, out, Raise e)
  | Ok st =>
      let running := running_of st in
      match state_label container running with
      | Raise e => (o, out, Raise e)
      | Ok label =>
          let out := out ++ [Commit o (ContainerState running label);
                             Pending o CheckingService;
                             Commit o (ServiceState running)] in
          inspect_ports container (ports Q container) o out
      end
  end.

(** One iteration of the loop of [FullStatus.run]: the [try] statement with
    its [except Exception] handler, then [o.commit('\n')]. *)
Definition inspect (order : nat) (container : Container) : list Event :=
  let o := Row order container in
  let '(o, out, r) := inspect_try container o in
  let out := match r with
             | Ok _ => out
             | Raise _ => out ++ [Commit o HostDown]
             end in
  out ++ [Commit o Newline].
End FullStatus.

(** ** The threads of a play *)

(** How a worker left [act]. *)
Inductive ExitPath :=
| ViaAbort        (* the [return] of the abort branch *)
| ViaSuccess      (* after [finally], the action returned *)
| ViaFailure.     (* after [finally], the action raised and was caught *)

(** The statement of [act] a worker executes next. *)
Inductive WorkerPc :=
| WPending            (* task.o.pending('waiting...') *)
| WAcquire            (* self._cv.acquire() *)
| WTestSatisfied      (* while not self._satisfied(task.container) ... *)
| WTestError          (*   ... and not self._error: *)
| WEnterWait          (* self._cv.wait(1): release the lock and block *)
| WWait               (* blocked in wait: notified or timed out next *)
| WWoken              (* in wait: take the lock again and return *)
| WRelease            (* self._cv.release() *)
| WTestAbort          (* if self._error: *)
| WAbort              (* task.o.commit(red('aborted!')); return *)
| WRun                (* task.run() is called *)
| WRunning            (* inside task.run() *)
| WDoneAdd            (* self._done.add(task.container) *)
| WExcept (e : Exception)         (* except Exception as e: self._error = e *)
| WFinallyAcquire (p : ExitPath)  (* finally: self._cv.acquire() *)
| WFinallyNotify (p : ExitPath)   (* self._cv.notifyAll() *)
| WFinallyRelease (p : ExitPath)  (* self._cv.release() *)
| WExit (p : ExitPath)            (* act has returned *)
| WDied (e : Exception).          (* an exception left act *)

Record Worker := {
  task : Task;
  pc : WorkerPc
}.

(** [t.isAlive()] for a started thread. *)
Definition isAlive (w : Worker) : bool :=
  match pc w with
  | WExit _ | WDied _ => false
  | _ => true
  end.

(** What the driver ([run] of a play variant) does between [start] and
    [end]: register the tasks it builds, one per container, or walk the
    containers itself ([FullStatus]). *)
Inductive Driver :=
| Registering (todo : list Task)
| Inspecting (order : nat) (todo : list Container).

(** The statement the controlling thread executes next. *)
Inductive MainPc :=
| MStart (d : Driver)               (* self.start() *)
| MRun (d : Driver)                 (* the loop of run(), then self.end() *)
| MFor (ts : list Tid)              (* for t in self._threads: *)
| MTestError (t : Tid) (ts : list Tid)   (* while not self._error ... *)
| MTestAlive (t : Tid) (ts : list Tid)   (*   ... and t.isAlive(): *)
| MJoin (t : Tid) (ts : list Tid)        (* t.join(1) *)
| MManualAbort (ts : list Tid)      (* self._error = 'Manual abort.' *)
| MExcept (e : Exception) (ts : list Tid)  (* self._error = e *)
| MFinallyAcquire (raising : bool) (ts : list Tid)  (* finally: acquire *)
| MFinallyNotify (raising : bool) (ts : list Tid)   (* self._cv.notifyAll() *)
| MFinallyRelease (raising : bool) (ts : list Tid)  (* self._cv.release() *)
| MOmEnd                            (* self._om.end() *)
| MReport                           (* if self._error: sys.stderr.write *)
| MReturned                         (* run() has returned *)
| MRaised.                          (* KeyboardInterrupt left run() *)

Record State := {
  self : Play;
  workers : list Worker;     (* the started threads, by thread identity *)
  main : MainPc;
  output : list Event
}.

(** What the scheduler and the environment can do next. *)
Inductive Action :=
| Main                        (* the controlling thread executes a statement *)
| KeyboardInterrupt           (* an interrupt reaches the controlling thread *)
| JoinRaises (e : Exception)  (* the join loop raises an Exception *)
| Work (t : Tid).             (* worker [t] executes a statement *)

Definition set_pc (w : Worker) (p : WorkerPc) : Worker :=
  {| task := task w; pc := p |}.

(** The effect of [notifyAll] on one thread: a thread blocked in [wait] is
    woken, the others are left as they are. *)
Definition wake (w : Worker) : Worker :=
  match pc w with
  | WWait => set_pc w WWoken
  | _ => w
  end.

Definition notified (notify : bool) (ws : list Worker) : list Worker :=
  if notify then wake <$> ws else ws.

(** [self._cv.acquire()]: enabled when no thread holds the lock. *)
Definition acquire (who : Thread) (self : Play) : option Play :=
  match _cv self with
  | None => Some (set_cv self (Some who))
  | Some _ => None
  end.

Section Engine.
Variable E : Entities.
Variable Q : Queries.

(** One statement of [act], the body of the thread [register] starts, for
    worker [t]: the play after it, the next statement, what it wrote, and
    whether it called [notifyAll]. *)
Definition act (t : Tid) (self : Play) (w : Worker)
  : option (Play * WorkerPc * list Event * bool) :=
  let c := task_container (task w) in
  match pc w with
  | WPending =>
      Some (self, WAcquire, [Pending (task_o (task w)) Waiting], false)
  | WAcquire =>
      self' ← acquire (WorkerThread t) self;
      Some (self', WTestSatisfied, [], false)
  | WTestSatisfied =>
      match _satisfied E self c with
      | Raise e => Some (self, WDied e, [], false)
      | Ok true => Some (self, WRelease, [], false)
      | Ok false => Some (self, WTestError, [], false)
      end
  | WTestError =>
      Some (self, if truthy (_error self) then WRelease else WEnterWait,
            [], false)
  | WEnterWait => Some (set_cv self None, WWait, [], false)
  | WWait => Some (self, WWoken, [], false)
  | WWoken =>
      self' ← acquire (WorkerThread t) self;
      Some (self', WTestSatisfied, [], false)
  | WRelease => Some (set_cv self None, WTestAbort, [], false)
  | WTestAbort =>
      Some (self, if truthy (_error self) then WAbort else WRun, [], false)
  | WAbort =>
      Some (self, WExit ViaAbort, [Commit (task_o (task w)) Aborted], false)
  | WRun => Some (self, WRunning, [RunTask t c], false)
  | WRunning =>
      Some (self,
            match task_run (task w) with
            | Ok _ => WDoneAdd
            | Raise e => WExcept e
            end, [], false)
  | WDoneAdd =>
      Some (set_done self (_done self ∪ {[ c ]}),
            WFinallyAcquire ViaSuccess, [], false)
  | WExcept e =>
      Some (set_error self (Some (Caught e)),
            WFinallyAcquire ViaFailure, [], false)
  | WFinallyAcquire p =>
      self' ← acquire (WorkerThread t) self;
      Some (self', WFinallyNotify p, [], false)
  | WFinallyNotify p =>
      Some (self, WFinallyRelease p, [NotifyAll (WorkerThread t)], true)
  | WFinallyRelease p => Some (set_cv self None, WExit p, [], false)
  | WExit _ => None
  | WDied _ => None
  end.

(** [BaseOrchestrationPlay.register]: start a thread running [act] on the
    task and add it to [self._threads]. *)
Definition register (self : Play) (ws : list Worker) (task : Task)
  : Play * list Worker :=
  let t := length ws in
  (set_threads self (_threads self ∪ {[ t ]}),
   ws ++ [ {| task := task; pc := WPending |} ]).

(** One statement of the controlling thread: [run] of a play variant, with
    [start] and [end] inlined. *)
Definition main_step (self : Play) (ws : list Worker) (m : MainPc)
  : option (Play * list Worker * MainPc * list Event * bool) :=
  match m with
  | MStart d => Some (self, ws, MRun d, [PrintHeader; OmStart], false)
  | MRun (Registering (task :: todo)) =>
      let '(self', ws') := register self ws task in
      Some (self', ws', MRun (Registering todo), [], false)
  | MRun (Inspecting order (container :: todo)) =>
      Some (self, ws, MRun (Inspecting (S order) todo),
            inspect Q order container, false)
  | MRun (Registering []) =>
      Some (self, ws, MFor (elements (_threads self)), [], false)
  | MRun (Inspecting _ []) =>
      Some (self, ws, MFor (elements (_threads self)), [], false)
  | MFor [] => Some (self, ws, MOmEnd, [], false)
  | MFor (t :: ts) => Some (self, ws, MTestError t ts, [], false)
  | MTestError t ts =>
      Some (self, ws,
            if truthy (_error self) then MFinallyAcquire false ts
            else MTestAlive t ts, [], false)
  | MTestAlive t ts =>
      w ← ws !! t;
      Some (self, ws,
            if isAlive w then MJoin t ts else MFinallyAcquire false ts,
            [], false)
  | MJoin t ts => Some (self, ws, MTestError t ts, [], false)
  | MManualAbort ts =>
      Some (set_error self (Some ManualAbort), ws,
            MFinallyAcquire false ts, [], false)
  | MExcept e ts =>
      Some (set_error self (Some (Caught e)), ws,
            MFinallyAcquire false ts, [], false)
  | MFinallyAcquire raising ts =>
      self' ← acquire MainThread self;
      Some (self', ws, MFinallyNotify raising ts, [], false)
  | MFinallyNotify raising ts =>
      Some (self, ws, MFinallyRelease raising ts,
            [NotifyAll MainThread], true)
  | MFinallyRelease raising ts =>
      Some (set_cv self None, ws, if raising then MRaised else MFor ts,
            [], false)
  | MOmEnd => Some (self, ws, MReport, [OmEnd], false)
  | MReport =>
      Some (self, ws, MReturned,
            match _error self with
            | Some v => if truthy (Some v) then [StderrWrite v] else []
            | None => []
            end, false)
  | MReturned => None
  | MRaised => None
  end.

(** A [KeyboardInterrupt] in the controlling thread.  Inside the [try] body
    of [end] it is handled; inside a handler the [finally] block still
    runs and the interrupt then leaves [run]; anywhere else it leaves
    [run] at once. *)
Definition interrupt (m : MainPc) : option MainPc :=
  match m with
  | MTestError _ ts | MTestAlive _ ts | MJoin _ ts => Some (MManualAbort ts)
  | MManualAbort ts | MExcept _ ts => Some (MFinallyAcquire true ts)
  | MReturned | MRaised => None
  | _ => Some MRaised
  end.

(** An [Exception] raised by [t.isAlive()] or [t.join(1)] is handled by the
    second handler of [end]. *)
Definition join_raises (e : Exception) (m : MainPc) : option MainPc :=
  match m with
  | MTestAlive _ ts | MJoin _ ts => Some (MExcept e ts)
  | _ => None
  end.

Definition step (a : Action) (s : State) : option State :=
  match a with
  | Work t =>
      w ← workers s !! t;
      '(self', pc', out, notify) ← act t (self s) w;
      Some {| self := self';
              workers := notified notify (<[ t := set_pc w pc' ]> (workers s));
              main := main s;
              output := output s ++ out |}
  | Main =>
      '(self', ws', m', out, notify) ← main_step (self s) (workers s) (main s);
      Some {| self := self'; workers := notified notify ws';
              main := m'; output := output s ++ out |}
  | KeyboardInterrupt =>
      m' ← interrupt (main s);
      Some {| self := self s; workers := workers s;
              main := m'; output := output s |}
  | JoinRaises e =>
      m' ← join_raises e (main s);
      Some {| self := self s; workers := workers s;
              main := m'; output := output s |}
  end.

Fixpoint run (acts : list Action) (s : State) : option State :=
  match acts with
  | [] => Some s
  | a :: acts' => s' ← step a s; run acts' s'
  end.

(** The state in which [run] of a play variant is entered, for a play
    object as its constructor leaves it. *)
Definition entered (p : Play) (d : Driver) : State :=
  {| self := p; workers := []; main := MStart d; output := [] |}.

(** A play object as [BaseOrchestrationPlay.__init__] leaves it. *)
Definition constructed (p : Play) : Prop :=
  ∃ containers forward respect_dependencies,
    __init__ E containers forward respect_dependencies = Ok p.

(** The tasks the loop of [Status.run] and [Start.run] registers:
    one per container, numbered from 1 in list order. *)
Definition row_tasks (action : Container → Result ())
    (containers : list Container) : list Task :=
  imap (λ order container,
          {| task_o := Row (order + 1) container;
             task_container := container;
             task_run := action container |}) containers.

(** The tasks the loop of [Stop.run] registers: numbered downwards from
    [len(self._containers)]. *)
Definition stop_tasks (action : Container → Result ())
    (containers : list Container) : list Task :=
  imap (λ order container,
          {| task_o := Row (length containers - order) container;
             task_container := container;
             task_run := action container |}) containers.

(** [Status.run], [Start.run], [Stop.run], [FullStatus.run] and
    [Restart.run]: the state in which each is entered. *)
Definition Status_run (action : Container → Result ())
    (containers : list Container) : Result State :=
  p ←! Status__init__ E containers;
  Ok (entered p (Registering (row_tasks action (_containers p)))).

Definition Start_run (action : Container → Result ())
    (containers : list Container) : Result State :=
  p ←! Start__init__ E containers;
  Ok (entered p (Registering (row_tasks action (_containers p)))).

Definition Stop_run (action : Container → Result ())
    (containers : list Container) : Result State :=
  p ←! Stop__init__ E containers;
  Ok (entered p (Registering (stop_tasks action (_containers p)))).


Definition Restart_run (containers : list Container) : Result State :=
  p ←! __init__ E containers true true;
  Ok (entered p (Registering [])).
End Engine.

(** ** A concrete deployment

    Four containers [A], [B], [C], [D], each the only member of its
    service; the service of [B] requires that of [A], the service of [C]
    requires that of [B], and [D] stands alone.  [needed_for] is the
    inverse relation. *)
Definition chain : Entities :=
  {| name := λ c, match c with
                  | 0 => "A" | 1 => "B" | 2 => "C" | 3 => "D" | _ => "?"
                  end;
     service := λ c, c;
     requires := λ s, match s with
                      | 1 => {[ 0 ]} | 2 => {[ 1 ]} | _ => ∅
                      end;
     needed_for := λ s, match s with
                        | 0 => {[ 1 ]} | 1 => {[ 2 ]} | _ => ∅
                        end;
     containers := λ s, if decide (s < 4) then [s] else [] |}.

(** Queries under which the host of [B] cannot be reached, and [A] runs
    with one port. *)
Definition probes : Queries :=
  {| status := λ c, match c with
                    | 0 => Ok (Some true)
                    | 1 => Raise (Failure "connection refused")
                    | _ => Ok None
                    end;
     container_id := λ c, Ok "0123456789abcdef";
     ports := λ c, match c with
                   | 0 => [("http", Ok "8080")]
                   | _ => []
                   end;
     ping_port := λ c n, Ok true |}.

(** Task actions: the one on [A] raises, so does the one on [D], with
    another message; the others return. *)
Definition actions (c : Container) : Result () :=
  match c with
  | 0 => Raise (Failure "A failed")
  | 3 => Raise (Failure "D failed")
  | _ => Ok ()
  end.

(** ** Specification-side notions *)

(** One dependency edge inside a play, in the words of the specification:
    [d] is a member container of a service that the service of [c]
    requires (forward) or is needed for (backward), and [d] is present in
    the play. *)
Definition depends_on (E : Entities) (play : gset Container)
    (forward : bool) (c d : Container) : Prop :=
  d ∈ play ∧ ∃ s, s ∈ direction E forward c ∧ d ∈ containers E s.

(** Reachability by repeatedly following such edges: the transitive
    closure the docstring of [_gather_dependencies] announces. *)
Definition reaches (E : Entities) (play : gset Container)
    (forward : bool) : relation Container :=
  tc (depends_on E play forward).

(** The output of the [FullStatus] loop over [todo], numbered from
    [order]. *)
Fixpoint walk (Q : Queries) (order : nat) (todo : list Container)
  : list Event :=
  match todo with
  | [] => []
  | container :: todo' => inspect Q order container ++ walk Q (S order) todo'
  end.

(** ** Invariants of the engine *)

(** The play object only moves forward: the dict of dependencies is fixed,
    [done] grows, and a true [error] stays true. *)
Definition advances (self self' : Play) : Prop :=
  _dependencies self' = _dependencies self
  ∧ _done self ⊆ _done self'
  ∧ (is_Some (_error self) → is_Some (_error self')).

Section Invariants.
Variable E : Entities.

(** What a worker past its wait loop has established. *)
Definition released (self : Play) (w : Worker) : Prop :=
  let c := task_container (task w) in
  match pc w with
  | WRelease | WTestAbort =>
      _satisfied E self c = Ok true ∨ truthy (_error self) = true
  | WRun | WRunning => _satisfied E self c = Ok true
  | _ => True
  end.

Definition released_inv (s : State) : Prop :=
  ∀ t w, workers s !! t = Some w → released (self s) w.

(** The statements a worker executes with the condition's lock held. *)
Definition in_monitor (p : WorkerPc) : bool :=
  match p with
  | WTestSatisfied | WTestError | WEnterWait | WRelease
  | WFinallyNotify _ | WFinallyRelease _ | WDied _ => true
  | _ => false
  end.

Definition main_in_monitor (m : MainPc) : bool :=
  match m with
  | MFinallyNotify _ _ | MFinallyRelease _ _ => true
  | _ => false
  end.

Definition monitor_inv (s : State) : Prop :=
  (∀ t w, workers s !! t = Some w → in_monitor (pc w) = true →
          _cv (self s) = Some (WorkerThread t))
  ∧ (main_in_monitor (main s) = true → _cv (self s) = Some MainThread).

(** The statements of a worker that come after its [notifyAll]. *)
Definition has_notified (p : WorkerPc) : bool :=
  match p with
  | WFinallyRelease _ | WExit ViaSuccess | WExit ViaFailure => true
  | _ => false
  end.

(** The [finally] block is not on the abort path. *)
Definition finally_pc (p : WorkerPc) : Prop :=
  match p with
  | WFinallyAcquire ViaAbort | WFinallyNotify ViaAbort
  | WFinallyRelease ViaAbort => False
  | _ => True
  end.

Definition notify_inv (s : State) : Prop :=
  (∀ t w, workers s !! t = Some w → finally_pc (pc w))
  ∧ (∀ t, NotifyAll (WorkerThread t) ∈ output s
          ↔ ∃ w, workers s !! t = Some w ∧ has_notified (pc w) = true).

(** Thread [t] has been started and is no longer alive. *)
Definition finished (s : State) (t : Tid) : Prop :=
  ∃ w, workers s !! t = Some w ∧ isAlive w = false.

(** What the loop of [end] has established when the threads [ts] are
    still to be visited. *)
Definition joined (s : State) (ts : list Tid) : Prop :=
  truthy (_error (self s)) = true
  ∨ ∀ t, t ∈ _threads (self s) → t ∉ ts → finished s t.

Definition join_inv (s : State) : Prop :=
  (∀ t, t ∈ _threads (self s) ↔ t < length (workers s))
  ∧ match main s with
    | MFor ts | MFinallyAcquire false ts | MFinallyNotify false ts
    | MFinallyRelease false ts => joined s ts
    | MTestError t ts | MTestAlive t ts | MJoin t ts => joined s (t :: ts)
    | MOmEnd | MReport | MReturned => joined s []
    | _ => True
    end.

Definition report_inv (s : State) : Prop :=
  (main s = MReport → OmEnd ∈ output s)
  ∧ (∀ v, StderrWrite v ∈ output s →
          OmEnd ∈ output s ∧ truthy (_error (self s)) = true).
End Invariants.

(** An output row event: what [pending] and [commit] write. *)
Definition is_row (ev : Event) : Prop :=
  match ev with
  | Pending _ _ | Commit _ _ => True
  | _ => False
  end.

(** ** Schedules on the concrete deployment *)

(** [Start] plays over the independent containers [A] and [D], and over
    [A] and its dependent [B]. *)
Definition start_A_D : Result State := Start_run chain actions [0; 3].
Definition start_A_B : Result State := Start_run chain actions [0; 1].

(** The statements of worker [t] from its start until it is inside its
    action, when it does not have to wait. *)
Definition until_running (t : Tid) : list Action := replicate 6 (Work t).

(** [run] is entered, both tasks are registered, and both workers get
    inside their actions. *)
Definition both_running : list Action :=
  replicate 3 Main ++ until_running 0 ++ until_running 1.

(** Then the action of the first worker raises and its handler runs. *)
Definition first_failure : list Action := both_running ++ [Work 0; Work 0].


(** The first worker fails before the second one starts; the second one
    then leaves through the abort branch. *)
Definition abort_of_second : list Action :=
  replicate 3 Main ++ replicate 8 (Work 0) ++ replicate 7 (Work 1).


(** ** Further invariants of the engine *)

Section MoreInvariants.
Variable E : Entities.

(** What the statement a worker is at says about its task and about the
    play: how the action ended, and what the worker has stored. *)
Definition outcome (self : Play) (w : Worker) : Prop :=
  let c := task_container (task w) in
  match pc w with
  | WAbort | WExit ViaAbort => is_Some (_error self)
  | WDoneAdd => task_run (task w) = Ok ()
  | WExcept e => task_run (task w) = Raise e
  | WFinallyAcquire ViaSuccess | WFinallyNotify ViaSuccess
  | WFinallyRelease ViaSuccess | WExit ViaSuccess =>
      task_run (task w) = Ok () ∧ c ∈ _done self
  | WFinallyAcquire ViaFailure | WFinallyNotify ViaFailure
  | WFinallyRelease ViaFailure | WExit ViaFailure =>
      (∃ e, task_run (task w) = Raise e) ∧ is_Some (_error self)
  | WFinallyAcquire ViaAbort | WFinallyNotify ViaAbort
  | WFinallyRelease ViaAbort => False
  | WDied e => e = KeyError ∧ _dependencies self !! name E c = None
  | _ => True
  end.

Definition outcome_inv (s : State) : Prop :=
  ∀ t w, workers s !! t = Some w → outcome (self s) w.
End MoreInvariants.

(** The statements of a worker that come before the call of its action,
    and the ends that never reach it. *)
Definition not_started (p : WorkerPc) : bool :=
  match p with
  | WPending | WAcquire | WTestSatisfied | WTestError | WEnterWait | WWait
  | WWoken | WRelease | WTestAbort | WAbort | WExit ViaAbort | WDied _ => true
  | _ => false
  end.

(** The statements of a worker that come after its action was entered. *)
Definition entered_action (p : WorkerPc) : bool :=
  match p with
  | WRunning | WDoneAdd | WExcept _ | WFinallyAcquire _ | WFinallyNotify _
  | WFinallyRelease _ | WExit ViaSuccess | WExit ViaFailure => true
  | _ => false
  end.

(** The event that worker [t] entered its action. *)
Definition is_run (t : Tid) (ev : Event) : bool :=
  match ev with
  | RunTask t' _ => bool_decide (t' = t)
  | _ => false
  end.

(** How many times worker [t] entered its action. *)
Definition runs (t : Tid) (out : list Event) : nat :=
  length (filter (λ ev, is_run t ev = true) out).

Definition runs_inv (s : State) : Prop :=
  (∀ t w, workers s !! t = Some w →
          runs t (output s) = if entered_action (pc w) then 1 else 0)
  ∧ (∀ t, length (workers s) ≤ t → runs t (output s) = 0).



(** The tasks a driver registers. *)
Definition driver_tasks (d : Driver) : list Task :=
  match d with
  | Registering todo => todo
  | Inspecting _ _ => []
  end.

(** The statements of the controlling thread that belong to [end]. *)
Definition in_end (m : MainPc) : bool :=
  match m with
  | MStart _ | MRun _ | MRaised => false
  | _ => true
  end.



Definition registered_inv (d : Driver) (s : State) : Prop :=
  match main s with
  | MStart d' | MRun d' =>
      (task <$> workers s) ++ driver_tasks d' = driver_tasks d
  | MRaised => ∃ rest, (task <$> workers s) ++ rest = driver_tasks d
  | _ => task <$> workers s = driver_tasks d
  end.

(** ** Further schedules on the concrete deployment *)






(** The first worker has failed; the second has not started yet. *)
Definition failure_before_second : list Action :=
  replicate 3 Main ++ replicate 8 (Work 0).

(** Both workers are inside their actions while the controlling thread
    polls the first thread of its loop. *)
Definition polling : list Action := both_running ++ replicate 5 Main.

(** * Properties *)

#[local] Set Warnings "-clear-no-such-hyp".

(** ** Dependency resolution *)

Section DependencyFacts.
Context (E : Entities).

Lemma elem_of_flatten_acc (l : list Service) (acc : gset Container) d :
  d ∈ foldl (λ x y, x ∪ list_to_set y) acc (containers E <$> l)
  ↔ d ∈ acc ∨ ∃ s, s ∈ l ∧ d ∈ containers E s.
Proof.
  revert acc. induction l as [|s l IH]; intros acc; simpl.
  - split; [auto|]. intros [?|(s & Hs & _)]; [done|]. by apply elem_of_nil in Hs.
  - rewrite IH, elem_of_union, elem_of_list_to_set. split.
    + intros [[?|?]|(s' & ? & ?)]; [by left| |].
      * right. exists s. split; [left|done].
      * right. exists s'. split; [by right|done].
    + intros [?|(s' & Hs' & ?)]; [by left; left|].
      apply elem_of_cons in Hs' as [->|?]; [by left; right|].
      right. by exists s'.
Qed.

Lemma elem_of_flatten (deps : gset Service) d :
  d ∈ flatten E deps ↔ ∃ s, s ∈ deps ∧ d ∈ containers E s.
Proof.
  unfold flatten. rewrite elem_of_flatten_acc. split.
  - intros [H|(s & Hs & ?)]; [by apply not_elem_of_empty in H|].
    exists s. by rewrite <- elem_of_elements.
  - intros (s & Hs & ?). right. exists s. by rewrite elem_of_elements.
Qed.

(** The loop of [_gather_dependencies] runs its body once, on the
    container itself: the result is the set of in-play members of the
    services one edge away, without the container. *)
Lemma gather_one_level cs fwd c :
  _gather_dependencies E cs fwd c
  = Ok ((flatten E (direction E fwd c) ∩ list_to_set cs) ∖ {[ c ]}).
Proof.
  unfold _gather_dependencies. rewrite elements_singleton. simpl.
  unfold set_remove. rewrite decide_True by set_solver.
  f_equal. set_solver.
Qed.

Lemma elem_of_gather cs fwd c deps d :
  _gather_dependencies E cs fwd c = Ok deps →
  d ∈ deps ↔ depends_on E (list_to_set cs) fwd c d ∧ d ≠ c.
Proof.
  rewrite gather_one_level. intros [= <-]. unfold depends_on.
  rewrite elem_of_difference, elem_of_intersection, elem_of_flatten,
    elem_of_singleton.
  tauto.
Qed.

Lemma dependencies_of_spec cs fwd respect c :
  dependencies_of E cs fwd respect c
  = Ok (if respect
        then (flatten E (direction E fwd c) ∩ list_to_set cs) ∖ {[ c ]}
        else ∅).
Proof.
  unfold dependencies_of. destruct respect; [|done].
  rewrite gather_one_level. simpl. by case_decide as H; [rewrite H|].
Qed.

(** The dict built by the constructor: the entries of the accumulator
    survive unless a container of the list has their key, and every
    container of the list gets the entry of the last container with its
    name. *)
Lemma build_dependencies_total cs fwd respect todo acc :
  ∃ deps, build_dependencies E cs fwd respect todo acc = Ok deps.
Proof.
  revert acc. induction todo as [|c todo IH]; intros acc; simpl; [eauto|].
  rewrite dependencies_of_spec. simpl. apply IH.
Qed.

Lemma build_dependencies_lookup cs fwd respect todo acc deps k D :
  build_dependencies E cs fwd respect todo acc = Ok deps →
  deps !! k = Some D →
  acc !! k = Some D
  ∨ ∃ c, c ∈ todo ∧ name E c = k ∧ dependencies_of E cs fwd respect c = Ok D.
Proof.
  revert acc. induction todo as [|c todo IH]; intros acc; simpl.
  - intros [= <-] ?. by left.
  - rewrite dependencies_of_spec. simpl. intros Hb Hk.
    destruct (IH _ Hb Hk) as [Hacc|(c' & ? & ? & ?)].
    + rewrite lookup_insert in Hacc. case_decide as Hn.
      * right. exists c. split; [left|split; [done|]].
        rewrite dependencies_of_spec. by simplify_eq.
      * by left.
    + right. exists c'. split; [by right|done].
Qed.

Lemma build_dependencies_dom cs fwd respect todo acc deps k :
  build_dependencies E cs fwd respect todo acc = Ok deps →
  is_Some (deps !! k) ↔ is_Some (acc !! k) ∨ ∃ c, c ∈ todo ∧ name E c = k.
Proof.
  revert acc. induction todo as [|c todo IH]; intros acc; simpl.
  - intros [= <-]. split; [by left|]. intros [?|(c & Hc & _)]; [done|].
    by apply elem_of_nil in Hc.
  - rewrite dependencies_of_spec. simpl. intros Hb.
    rewrite (IH _ Hb), lookup_insert_is_Some. split.
    + intros [[<-|[_ ?]]|(c' & ? & ?)].
      * right. exists c. split; [left|done].
      * by left.
      * right. exists c'. split; [by right|done].
    + intros [?|(c' & Hc' & Hn)].
      * destruct (decide (name E c = k)); [by left; left|by left; right].
      * apply elem_of_cons in Hc' as [->|?]; [by left; left|].
        right. by exists c'.
Qed.

Lemma init_total cs fwd respect :
  ∃ p, __init__ E cs fwd respect = Ok p.
Proof.
  unfold __init__.
  destruct (build_dependencies_total cs fwd respect cs ∅) as [deps ->].
  simpl. eauto.
Qed.

Lemma init_fields cs fwd respect p :
  __init__ E cs fwd respect = Ok p →
  _containers p = cs ∧ _forward p = fwd ∧ _threads p = ∅ ∧ _done p = ∅
  ∧ _error p = None ∧ _cv p = None
  ∧ build_dependencies E cs fwd respect cs ∅ = Ok (_dependencies p).
Proof.
  unfold __init__.
  destruct (build_dependencies E cs fwd respect cs ∅) as [deps|e] eqn:Hb;
    simpl; [|done].
  by intros [= <-].
Qed.

Lemma init_lookup cs fwd respect p k D :
  __init__ E cs fwd respect = Ok p →
  _dependencies p !! k = Some D →
  ∃ c, c ∈ cs ∧ name E c = k ∧ dependencies_of E cs fwd respect c = Ok D.
Proof.
  intros Hp Hk. apply init_fields in Hp as (_ & _ & _ & _ & _ & _ & Hb).
  destruct (build_dependencies_lookup _ _ _ _ _ _ _ _ Hb Hk)
    as [Hacc|?]; [|done].
  by rewrite lookup_empty in Hacc.
Qed.

Lemma init_is_Some cs fwd respect p c :
  __init__ E cs fwd respect = Ok p →
  c ∈ cs → is_Some (_dependencies p !! name E c).
Proof.
  intros Hp Hc. apply init_fields in Hp as (_ & _ & _ & _ & _ & _ & Hb).
  rewrite (build_dependencies_dom _ _ _ _ _ _ _ Hb). right. by exists c.
Qed.

End DependencyFacts.

(** ** The engine: how one step changes the state *)

(** Case analysis on a [match] whose scrutinee has no [match] inside. *)
Ltac case_inner :=
  match goal with
  | H : context [match ?x with _ => _ end] |- _ =>
      lazymatch x with
      | context [match _ with _ => _ end] => fail
      | _ => destruct x eqn:?
      end
  | |- context [match ?x with _ => _ end] =>
      lazymatch x with
      | context [match _ with _ => _ end] => fail
      | _ => destruct x eqn:?
      end
  end.

Section EngineFacts.
Context (E : Entities) (Q : Queries).

Lemma advances_refl self : advances self self.
Proof. by split_and!. Qed.

Lemma advances_trans a b c : advances a b → advances b c → advances a c.
Proof.
  intros (? & ? & ?) (? & ? & ?).
  split; [congruence|]. split; [set_solver|auto].
Qed.

Lemma truthy_is_Some v : truthy v = true ↔ is_Some v.
Proof.
  destruct v as [[]|]; simpl; split; try done; try by eauto.
Qed.

Lemma acquire_Some who self self' :
  acquire who self = Some self' →
  _cv self = None ∧ self' = set_cv self (Some who).
Proof. unfold acquire. destruct (_cv self); naive_solver. Qed.

(** A statement of a worker leaves the dict and the registry alone, and
    moves [done] and [error] forward only. *)
Lemma act_advances t self w self' pc' out n :
  act E t self w = Some (self', pc', out, n) →
  advances self self' ∧ _threads self' = _threads self.
Proof.
  unfold act, advances, acquire. intros H.
  destruct (pc w); repeat case_match; simplify_option_eq; simpl;
    split_and!; try done; try set_solver; eauto.
Qed.

Lemma main_step_advances self ws m self' ws' m' out n :
  main_step Q self ws m = Some (self', ws', m', out, n) →
  advances self self'.
Proof.
  unfold main_step, advances, acquire, register. intros H.
  destruct m; repeat case_match; simplify_option_eq; simpl;
    split_and!; try done; eauto.
Qed.

Lemma step_advances a s s' :
  step E Q a s = Some s' → advances (self s) (self s').
Proof.
  destruct a; simpl; intros H; simplify_option_eq.
  - repeat case_match. simplify_eq. simpl. by eapply main_step_advances.
  - apply advances_refl.
  - apply advances_refl.
  - repeat case_match. simplify_eq. simpl. by eapply act_advances.
Qed.

Lemma run_advances acts s s' :
  run E Q acts s = Some s' → advances (self s) (self s').
Proof.
  revert s. induction acts as [|a acts IH]; intros s; simpl.
  - intros [= <-]. apply advances_refl.
  - intros H. simplify_option_eq.
    eapply advances_trans; [by eapply step_advances|by apply IH].
Qed.

Lemma run_app acts1 acts2 s :
  run E Q (acts1 ++ acts2) s = run E Q acts1 s ≫= run E Q acts2.
Proof.
  revert s. induction acts1 as [|a acts1 IH]; intros s; simpl; [done|].
  destruct (step E Q a s); simpl; [apply IH|done].
Qed.

Lemma step_Work t s w self' pc' out n :
  workers s !! t = Some w →
  act E t (self s) w = Some (self', pc', out, n) →
  step E Q (Work t) s
  = Some {| self := self';
            workers := notified n (<[ t := set_pc w pc' ]> (workers s));
            main := main s; output := output s ++ out |}.
Proof. intros Hw Ha. simpl. rewrite Hw. simpl. by rewrite Ha. Qed.

Lemma run_step a acts s s1 :
  step E Q a s = Some s1 → run E Q (a :: acts) s = run E Q acts s1.
Proof. intros H. simpl. by rewrite H. Qed.

(** Invariants are proved by induction along a run. *)
Lemma run_invariant (I : State → Prop) acts s s' :
  (∀ a s1 s2, I s1 → step E Q a s1 = Some s2 → I s2) →
  I s → run E Q acts s = Some s' → I s'.
Proof.
  intros Hstep. revert s. induction acts as [|a acts IH]; intros s; simpl.
  - by intros ? [= <-].
  - intros Hs H. simplify_option_eq. eauto.
Qed.

Lemma lookup_notified n ws t :
  notified n ws !! t = (if n then wake else id) <$> ws !! t.
Proof.
  unfold notified. destruct n; [by rewrite list_lookup_fmap|].
  by destruct (ws !! t).
Qed.

Lemma length_notified n ws : length (notified n ws) = length ws.
Proof. unfold notified. destruct n; [by rewrite length_fmap|done]. Qed.

Lemma wake_task w : task (wake w) = task w.
Proof. unfold wake. by destruct (pc w). Qed.

Lemma wake_pc w :
  pc (wake w) = pc w ∨ (pc w = WWait ∧ pc (wake w) = WWoken).
Proof. unfold wake. destruct (pc w) eqn:Hpc; simpl; auto. Qed.

Lemma act_notify t self w self' pc' out n :
  act E t self w = Some (self', pc', out, n) →
  n = true → ∃ p, pc w = WFinallyNotify p ∧ pc' = WFinallyRelease p.
Proof.
  unfold act. intros H ->.
  destruct (pc w); repeat case_match; simplify_option_eq; eauto.
Qed.

(** The threads after a step, seen from the threads before it: a thread is
    left alone, or woken from [wait], or it is the worker that made the
    step, or it has just been started by [register]. *)
Lemma step_worker a s s' t w' :
  step E Q a s = Some s' →
  workers s' !! t = Some w' →
  (∃ w, workers s !! t = Some w ∧ task w' = task w
        ∧ ((a ≠ Work t ∧ (pc w' = pc w ∨ (pc w = WWait ∧ pc w' = WWoken)))
           ∨ (a = Work t ∧ ∃ out n,
                act E t (self s) w = Some (self s', pc w', out, n))))
  ∨ (workers s !! t = None ∧ a = Main ∧ pc w' = WPending
     ∧ t = length (workers s) ∧ ∃ d, main s = MRun d).
Proof.
  destruct a as [| |e|t0]; simpl; intros H Hw'.
  - destruct (main_step Q (self s) (workers s) (main s))
      as [[[[[self' ws'] m'] out] n]|] eqn:Hm; simplify_option_eq.
    rewrite lookup_notified in Hw'.
    destruct (ws' !! t) as [w0|] eqn:Hw0; simplify_option_eq.
    assert (ws' = workers s ∨
            ∃ task d, ws' = workers s ++ [ {| task := task; pc := WPending |} ]
                      ∧ n = false ∧ main s = MRun d) as [->|(tk & d & -> & -> & Hd)].
    { unfold main_step, register in Hm.
      destruct (main s); repeat case_match; simplify_option_eq; eauto 10. }
    + left. exists w0. split; [done|]. destruct n; simpl.
      * split; [apply wake_task|]. left. split; [done|].
        destruct (wake_pc w0); auto.
      * naive_solver.
    + simpl. destruct (decide (t < length (workers s))) as [Hlt|Hge].
      * rewrite lookup_app_l in Hw0 by done. left. exists w0. naive_solver.
      * right. rewrite lookup_app_r in Hw0 by lia.
        destruct (t - length (workers s)) as [|k] eqn:Hk; simpl in Hw0;
          [|done].
        simplify_eq. split_and!; [apply lookup_ge_None; lia|done|done|lia|eauto].
  - simplify_option_eq. left. exists w'. naive_solver.
  - simplify_option_eq. left. exists w'. naive_solver.
  - destruct (workers s !! t0) as [w0|] eqn:Hw0; simplify_option_eq.
    destruct (act E t0 (self s) w0) as [[[[self' pc'] out] n]|] eqn:Ha;
      simplify_option_eq.
    rewrite lookup_notified in Hw'.
    destruct (decide (t0 = t)) as [->|Hne].
    + rewrite list_lookup_insert_eq in Hw' by (by eapply lookup_lt_Some).
      simpl in Hw'. left. exists w0. split; [done|].
      destruct n; simplify_eq.
      * destruct (act_notify _ _ _ _ _ _ _ Ha eq_refl) as (p & Hp & ->).
        unfold wake; simpl. split; [done|]. right. eauto.
      * simpl. split; [done|]. right. eauto.
    + rewrite list_lookup_insert_ne in Hw' by done.
      destruct (workers s !! t) as [w1|] eqn:Hw1; simplify_option_eq.
      left. exists w1. split; [done|].
      assert (Work t0 ≠ Work t) by congruence. destruct n; simpl.
      * split; [apply wake_task|]. left. split; [done|].
        destruct (wake_pc w1); auto.
      * naive_solver.
Qed.

Lemma step_length a s s' :
  step E Q a s = Some s' → length (workers s) ≤ length (workers s').
Proof.
  destruct a as [| |e|t0]; simpl; intros H; simplify_option_eq; try done.
  - repeat case_match. simplify_eq. simpl. rewrite length_notified.
    unfold main_step, register in *.
    destruct (main s); repeat case_match; simplify_option_eq;
      rewrite ?length_app; simpl; lia.
  - repeat case_match. simplify_eq. simpl.
    by rewrite length_notified, length_insert.
Qed.

(** Every thread of the state before a step is still there after it. *)
Lemma step_worker_fwd a s s' t w :
  step E Q a s = Some s' →
  workers s !! t = Some w →
  ∃ w', workers s' !! t = Some w'.
Proof.
  intros Hs Hw. apply lookup_lt_is_Some.
  apply step_length in Hs. apply lookup_lt_Some in Hw. lia.
Qed.

(** *** Satisfied dependencies stay satisfied *)


Lemma truthy_advances self self' :
  advances self self' →
  truthy (_error self) = true → truthy (_error self') = true.
Proof. intros (_ & _ & He). rewrite !truthy_is_Some. apply He. Qed.





(** *** The condition's lock *)

(** What a statement of a worker does to the lock: nothing, or it takes the
    free lock, or it gives up the lock it holds. *)
Lemma act_cv t self w self' pc' out n :
  act E t self w = Some (self', pc', out, n) →
  (_cv self' = _cv self ∧ in_monitor pc' = in_monitor (pc w))
  ∨ (_cv self = None ∧ _cv self' = Some (WorkerThread t)
     ∧ in_monitor (pc w) = false)
  ∨ (_cv self' = None ∧ in_monitor (pc w) = true ∧ in_monitor pc' = false).
Proof.
  unfold act, acquire. intros H.
  destruct (pc w) eqn:Hpc; repeat case_match; simplify_option_eq; simpl;
    auto.
Qed.

Lemma main_step_cv self ws m self' ws' m' out n :
  main_step Q self ws m = Some (self', ws', m', out, n) →
  (_cv self' = _cv self ∧ main_in_monitor m' = main_in_monitor m)
  ∨ (_cv self = None ∧ _cv self' = Some MainThread
     ∧ main_in_monitor m = false)
  ∨ (_cv self' = None ∧ main_in_monitor m = true
     ∧ main_in_monitor m' = false).
Proof.
  unfold main_step, acquire, register. intros H.
  destruct m; repeat case_match; simplify_option_eq; simpl; auto.
  left. by destruct (isAlive _).
Qed.

Lemma interrupt_monitor m m' :
  interrupt m = Some m' → main_in_monitor m' = false.
Proof. destruct m; simpl; intros; by simplify_eq. Qed.

Lemma join_raises_monitor e m m' :
  join_raises e m = Some m' → main_in_monitor m' = false.
Proof. destruct m; simpl; intros; by simplify_eq. Qed.

Lemma monitor_inv_step a s s' :
  monitor_inv s → step E Q a s = Some s' → monitor_inv s'.
Proof.
  intros [Hw Hm] Hstep. split.
  - intros t w' Hw' Hin.
    destruct (step_worker _ _ _ _ _ Hstep Hw')
      as [(w & Hwt & Htask & Hcase)|(_ & _ & Hpc & _)];
      [|by rewrite Hpc in Hin].
    destruct Hcase as [(Hna & Hcase)|(-> & out & n & Hact)].
    + assert (in_monitor (pc w) = true) as Hin0.
      { destruct Hcase as [Hpc|[_ Hpc]];
          [congruence|by rewrite Hpc in Hin]. }
      pose proof (Hw _ _ Hwt Hin0) as Hown.
      destruct a as [| |e|t0]; simpl in Hstep.
      * destruct (main_step Q (self s) (workers s) (main s))
          as [[[[[self' ws'] m'] out] n]|] eqn:Hmain; simplify_option_eq.
        simpl in *.
        destruct (main_step_cv _ _ _ _ _ _ _ _ Hmain)
          as [[-> _]|[(Hn & _)|(_ & Hmon & _)]]; [done|congruence|].
        specialize (Hm Hmon). congruence.
      * by simplify_option_eq.
      * by simplify_option_eq.
      * destruct (workers s !! t0) as [w0|] eqn:Hw0; simplify_option_eq.
        destruct (act E t0 (self s) w0) as [[[[self' pc'] out] n]|] eqn:Ha;
          simplify_option_eq. simpl in *.
        destruct (act_cv _ _ _ _ _ _ _ Ha)
          as [[-> _]|[(Hn & _)|(_ & Hmon & _)]]; [done|congruence|].
        pose proof (Hw _ _ Hw0 Hmon) as Hown0. congruence.
    + destruct (act_cv _ _ _ _ _ _ _ Hact)
        as [[-> Hsame]|[(_ & -> & _)|(_ & _ & Hout)]]; [|done|congruence].
      rewrite Hsame in Hin. eauto.
  - intros Hin.
    destruct a as [| |e|t0]; simpl in Hstep.
    + destruct (main_step Q (self s) (workers s) (main s))
        as [[[[[self' ws'] m'] out] n]|] eqn:Hmain; simplify_option_eq.
      simpl in *.
      destruct (main_step_cv _ _ _ _ _ _ _ _ Hmain)
        as [[-> Hsame]|[(_ & -> & _)|(_ & _ & Hout)]]; [|done|congruence].
      rewrite Hsame in Hin. auto.
    + simplify_option_eq. simpl in Hin.
      by erewrite interrupt_monitor in Hin.
    + simplify_option_eq. simpl in Hin.
      by erewrite join_raises_monitor in Hin.
    + destruct (workers s !! t0) as [w0|] eqn:Hw0; simplify_option_eq.
      destruct (act E t0 (self s) w0) as [[[[self' pc'] out] n]|] eqn:Ha;
        simplify_option_eq. simpl in *.
      specialize (Hm Hin).
      destruct (act_cv _ _ _ _ _ _ _ Ha)
        as [[-> _]|[(Hn & _)|(_ & Hmon & _)]]; [done|congruence|].
      specialize (Hw _ _ Hw0 Hmon). congruence.
Qed.

(** *** What a step writes *)

Lemma inspect_ports_rows c items o out :
  Forall is_row out → Forall is_row (inspect_ports Q c items o out).1.2.
Proof.
  revert o out. induction items as [|[n ext] items IH]; intros o out Hout;
    simpl; [done|].
  destruct ext as [ext|e]; simpl.
  - destruct (ping_port Q c n); simpl.
    + apply IH. rewrite !Forall_app. repeat constructor; by decompose_Forall.
    + rewrite !Forall_app. repeat constructor; by decompose_Forall.
  - rewrite Forall_app. repeat constructor; done.
Qed.

(** The [FullStatus] walk only writes rows. *)
Lemma inspect_rows order c : Forall is_row (inspect Q order c).
Proof.
  unfold inspect.
  assert (Forall is_row (inspect_try Q c (Row order c)).1.2) as H.
  { unfold inspect_try. destruct (status Q c); simpl; [|by repeat constructor].
    destruct (state_label Q c _); simpl; [|by repeat constructor].
    apply inspect_ports_rows. by repeat constructor. }
  destruct (inspect_try Q c (Row order c)) as [[o out] r]. simpl in H.
  destruct r; rewrite ?Forall_app; repeat constructor; done.
Qed.

Lemma step_output a s s' :
  step E Q a s = Some s' →
  ∃ out, output s' = output s ++ out ∧
    match a with
    | Work t => ∃ w pc' n, workers s !! t = Some w
                           ∧ act E t (self s) w = Some (self s', pc', out, n)
                           ∧ main s' = main s
    | Main => ∃ ws' n, main_step Q (self s) (workers s) (main s)
                       = Some (self s', ws', main s', out, n)
                       ∧ workers s' = notified n ws'
    | KeyboardInterrupt => out = [] ∧ self s' = self s
                           ∧ workers s' = workers s
                           ∧ interrupt (main s) = Some (main s')
    | JoinRaises e => out = [] ∧ self s' = self s
                      ∧ workers s' = workers s
                      ∧ join_raises e (main s) = Some (main s')
    end.
Proof.
  destruct a as [| |e|t0]; simpl; intros H.
  - destruct (main_step Q (self s) (workers s) (main s))
      as [[[[[self' ws'] m'] out] n]|] eqn:Hmain; simplify_option_eq.
    simpl. exists out. split; [done|]. by exists ws', n.
  - simplify_option_eq. exists []. by rewrite app_nil_r.
  - simplify_option_eq. exists []. by rewrite app_nil_r.
  - destruct (workers s !! t0) as [w0|] eqn:Hw0; simplify_option_eq.
    destruct (act E t0 (self s) w0) as [[[[self' pc'] out] n]|] eqn:Ha;
      simplify_option_eq. simpl. exists out. split; [done|].
    by exists w0, pc', n.
Qed.

Lemma output_mono a s s' ev :
  step E Q a s = Some s' → ev ∈ output s → ev ∈ output s'.
Proof.
  intros Hs Hev. destruct (step_output _ _ _ Hs) as (out & -> & _).
  apply elem_of_app. by left.
Qed.

(** What the statements of a worker write about [notifyAll]. *)
Lemma act_notify_out t self w self' pc' out n :
  act E t self w = Some (self', pc', out, n) →
  finally_pc (pc w) →
  finally_pc pc'
  ∧ (has_notified (pc w) = true → has_notified pc' = true)
  ∧ (∀ t', NotifyAll (WorkerThread t') ∈ out
           ↔ t' = t ∧ has_notified (pc w) = false
             ∧ has_notified pc' = true)
  ∧ (∀ v, StderrWrite v ∉ out) ∧ OmEnd ∉ out.
Proof.
  unfold act, acquire. intros H Hf.
  destruct (pc w) eqn:Hpc; repeat case_match; simplify_option_eq; simpl in *;
    try done;
    split_and!; try done; intros;
    rewrite ?elem_of_cons, ?elem_of_nil;
    try (intuition (discriminate || congruence)).
  by destruct p.
Qed.

Lemma main_step_out self ws m self' ws' m' out n :
  main_step Q self ws m = Some (self', ws', m', out, n) →
  (∀ t, NotifyAll (WorkerThread t) ∉ out)
  ∧ (OmEnd ∈ out ↔ m = MOmEnd)
  ∧ (∀ v, StderrWrite v ∈ out → m = MReport ∧ truthy (_error self') = true).
Proof.
  unfold main_step, acquire, register. intros H.
  assert (∀ order c ev, ¬ is_row ev → ev ∉ inspect Q order c) as Hrows.
  { intros order c ev Hev Hin.
    pose proof (inspect_rows order c) as Hall.
    rewrite Forall_forall in Hall. by apply Hev, Hall. }
  destruct m; repeat case_match; simplify_option_eq; simpl in *;
    split_and!; try (intros ?); try set_solver.
  all: try (by apply Hrows; intros []).
  all: try (split; [intros Hin; by apply Hrows in Hin; [|intros []]|done]).
  all: try (intros Hin; by apply Hrows in Hin; [|intros []]).
  intros _. split; [done|]. rewrite truthy_is_Some. eauto.
Qed.

(** *** Who has called [notifyAll] *)

Lemma notify_inv_step a s s' :
  notify_inv s → step E Q a s = Some s' → notify_inv s'.
Proof.
  intros [Hf Hn] Hstep.
  destruct (step_output _ _ _ Hstep) as (out & Hout & Hdet).
  assert (∀ t w', workers s' !! t = Some w' →
    finally_pc (pc w')
    ∧ (has_notified (pc w') = true ↔
       (∃ w, workers s !! t = Some w ∧ has_notified (pc w) = true)
       ∨ NotifyAll (WorkerThread t) ∈ out)) as Hkey.
  { intros t w' Hw'.
    destruct (step_worker _ _ _ _ _ Hstep Hw')
      as [(w & Hw & _ & [(Hna & Hc)|(-> & out' & n' & Hact)])
         |(Hnone & -> & Hpc & _)].
    - assert (NotifyAll (WorkerThread t) ∉ out) as Hno.
      { destruct a as [| |e|t0].
        - destruct Hdet as (ws' & n & Hmain & _).
          apply main_step_out in Hmain as (Hno & _). apply Hno.
        - destruct Hdet as (-> & _). apply not_elem_of_nil.
        - destruct Hdet as (-> & _). apply not_elem_of_nil.
        - destruct Hdet as (w0 & pc' & n & Hw0 & Hact & _).
          apply act_notify_out in Hact as (_ & _ & Hiff & _); [|by eapply Hf].
          rewrite Hiff. intros (-> & _). by apply Hna. }
      assert (pc w' = pc w ∨ (has_notified (pc w) = false
                               ∧ has_notified (pc w') = false)) as Hsame.
      { destruct Hc as [?|[-> ->]]; auto. }
      split.
      + destruct Hc as [->|[_ ->]]; [by eapply Hf|done].
      + destruct Hsame as [->|[Hf1 Hf2]].
        * split; [eauto|]. intros [(w1 & ? & ?)|?]; [congruence|done].
        * rewrite Hf2. split; [done|].
          intros [(w1 & ? & ?)|?]; [congruence|done].
    - simpl in Hdet. destruct Hdet as (w0 & pc' & n & Hw0 & Hact0 & _).
      assert (w0 = w) as -> by congruence.
      rewrite Hact in Hact0. simplify_eq.
      apply act_notify_out in Hact as (Hfp & Hpres & Hiff & _);
        [|by eapply Hf].
      split; [done|]. rewrite Hiff. split.
      + intros Hw'n. destruct (has_notified (pc w)) eqn:Hwn; [left|right];
          eauto.
      + intros [(w1 & ? & ?)|(_ & _ & ?)]; [|done].
        apply Hpres. congruence.
    - rewrite Hpc. split; [done|]. simpl. split; [done|].
      intros [(w1 & ? & ?)|Hin]; [congruence|].
      destruct Hdet as (ws' & n & Hmain & _).
      apply main_step_out in Hmain as (Hno & _). by apply Hno in Hin. }
  split; [intros t w' Hw'; by destruct (Hkey _ _ Hw')|].
  intros t. rewrite Hout, elem_of_app, Hn. split.
  - intros Hpre.
    assert (is_Some (workers s' !! t)) as [w' Hw'].
    { destruct Hpre as [(w & Hw & _)|Hin].
      - by eapply step_worker_fwd.
      - destruct a as [| |e|t0].
        + destruct Hdet as (ws' & n & Hmain & _).
          apply main_step_out in Hmain as (Hno & _). by apply Hno in Hin.
        + destruct Hdet as (-> & _). by apply elem_of_nil in Hin.
        + destruct Hdet as (-> & _). by apply elem_of_nil in Hin.
        + destruct Hdet as (w0 & pc' & n & Hw0 & Hact & _).
          apply act_notify_out in Hact as (_ & _ & Hiff & _); [|by eapply Hf].
          apply Hiff in Hin as (-> & _). by eapply step_worker_fwd. }
    exists w'. split; [done|]. destruct (Hkey _ _ Hw') as [_ Hiff].
    by apply Hiff.
  - intros (w' & Hw' & Hwn). destruct (Hkey _ _ Hw') as [_ Hiff].
    by apply Hiff.
Qed.

(** *** The join loop of [end] *)

(** A thread that has ended stays ended. *)
Lemma finished_step a s s' t :
  step E Q a s = Some s' → finished s t → finished s' t.
Proof.
  intros Hstep (w & Hw & Hdead).
  destruct (step_worker_fwd _ _ _ _ _ Hstep Hw) as [w' Hw'].
  exists w'. split; [done|].
  destruct (step_worker _ _ _ _ _ Hstep Hw')
    as [(w0 & Hw0 & _ & [(_ & Hc)|(-> & out & n & Hact)])
       |(Hnone & _)]; [| |congruence].
  - assert (w0 = w) as -> by congruence. unfold isAlive in *.
    destruct Hc as [->|[Hwait _]]; [done|]. by rewrite Hwait in Hdead.
  - assert (w0 = w) as -> by congruence. unfold isAlive, act in *.
    destruct (pc w); simplify_eq; done.
Qed.

Lemma joined_step a s s' ts :
  step E Q a s = Some s' →
  _threads (self s') = _threads (self s) →
  joined s ts → joined s' ts.
Proof.
  intros Hstep Hthreads [Herr|Hfin].
  - left. eapply truthy_advances; [|done]. by eapply step_advances.
  - right. intros t Ht Hts. rewrite Hthreads in Ht.
    eapply finished_step; eauto.
Qed.

Lemma joined_weaken s t ts : joined s ts → joined s (t :: ts).
Proof.
  intros [?|Hfin]; [by left|]. right. intros t' Ht' Hnin.
  apply Hfin; [done|]. set_solver.
Qed.

Lemma join_inv_step a s s' :
  join_inv s → step E Q a s = Some s' → join_inv s'.
Proof.
  intros [Hreg Hmain] Hstep.
  assert (∀ ts, _threads (self s') = _threads (self s) →
                joined s ts → joined s' ts) as Hj
    by (intros; by eapply joined_step).
  destruct a as [| |e|t0]; simpl in Hstep.
  - destruct (main_step Q (self s) (workers s) (main s))
      as [[[[[self' ws'] m'] out] n]|] eqn:Hm; simplify_option_eq.
    unfold main_step, register, acquire in Hm.
    split.
    + intros t. simpl. rewrite length_notified.
      destruct (main s); repeat case_inner; simplify_option_eq; simpl;
        try apply Hreg.
      rewrite elem_of_union, elem_of_singleton, Hreg, length_app. simpl. lia.
    + simpl in *.
      destruct (main s) eqn:Hms; simplify_option_eq; repeat case_inner;
        simplify_option_eq; simpl in *; try done; try (by apply Hj).
      all: try (by left).
      all: try (right; intros ? Ht ?; by apply elem_of_elements in Ht).
      match goal with
      | Hw : workers s !! ?t = Some ?w, Hd : isAlive ?w = false |- _ =>
          destruct Hmain as [?|Hall]; [by left|]; right; intros t' Ht' Hnin;
          destruct (decide (t' = t)) as [->|Hne];
            [by exists w|apply Hall; [done|set_solver]]
      end.
  - simplify_option_eq. split; [done|]. simpl.
    destruct (main s); simpl in *; simplify_eq; done.
  - simplify_option_eq. split; [done|]. simpl.
    destruct (main s); simpl in *; simplify_eq; done.
  - destruct (workers s !! t0) as [w0|] eqn:Hw0; simplify_option_eq.
    destruct (act E t0 (self s) w0) as [[[[self' pc'] out] n]|] eqn:Ha;
      simplify_option_eq.
    apply act_advances in Ha as [_ Hth]. simpl in *. split.
    + intros t. simpl. rewrite length_notified, length_insert, Hth.
      apply Hreg.
    + simpl. destruct (main s); try done; try (by apply Hj).
      all: destruct raising; try done; by apply Hj.
Qed.

(** *** The diagnostic line *)




(** *** The invariants hold along every run of a play *)

Lemma entered_invariants p d :
  released_inv E (entered p d) ∧ monitor_inv (entered p d)
  ∧ notify_inv (entered p d) ∧ report_inv (entered p d).
Proof.
  unfold released_inv, monitor_inv, notify_inv, report_inv, entered; simpl.
  split_and!; try done; try (intros ? ?; by rewrite lookup_nil).
  - intros t. split; [by intros ?%elem_of_nil|].
    intros (w & Hw & _). by rewrite lookup_nil in Hw.
  - intros v ?%elem_of_nil. done.
Qed.

Lemma entered_join_inv p d : _threads p = ∅ → join_inv (entered p d).
Proof.
  intros Hth. unfold join_inv, entered; simpl. split; [|done].
  intros t. rewrite Hth. simpl. split; [by intros ?%not_elem_of_empty|lia].
Qed.


Lemma run_monitor p d acts s :
  run E Q acts (entered p d) = Some s → monitor_inv s.
Proof.
  apply run_invariant; [apply monitor_inv_step|apply entered_invariants].
Qed.

Lemma run_notify p d acts s :
  run E Q acts (entered p d) = Some s → notify_inv s.
Proof.
  apply run_invariant; [apply notify_inv_step|apply entered_invariants].
Qed.


Lemma run_join p d acts s :
  _threads p = ∅ → run E Q acts (entered p d) = Some s → join_inv s.
Proof.
  intros Hth. apply run_invariant; [apply join_inv_step|].
  by apply entered_join_inv.
Qed.
End EngineFacts.

(** ** The claims about dependency resolution *)

(** C1 (not met by the code).  The docstring of [_gather_dependencies]
    promises the transitive closure, but the loop visits the container
    only: in a forward play over the chain [A], [B], [C], where [B]
    requires [A] and [C] requires [B], container [A] is reachable from [C]
    through in-play containers, yet the set gathered for [C] is [{B}]. *)
Theorem C1_gather_stops_after_one_level :
  reaches chain (list_to_set [0; 1; 2]) true 2 0
  ∧ ∃ deps, _gather_dependencies chain [0; 1; 2] true 2 = Ok deps
            ∧ deps = {[ 1 ]} ∧ 0 ∉ deps.
Proof.
  assert (∀ c, c < 4 → containers chain c = [c]) as Hmembers.
  { intros c Hc. simpl. by rewrite decide_True. }
  split.
  - apply (tc_l _ 2 1 0); [|apply tc_once].
    + split; [set_solver|]. exists 1. split; [simpl; set_solver|].
      rewrite Hmembers by lia. set_solver.
    + split; [set_solver|]. exists 0. split; [simpl; set_solver|].
      rewrite Hmembers by lia. set_solver.
  - exists {[ 1 ]}. split; [|split; [done|set_solver]].
    by vm_compute.
Qed.

(** C6.  The set computed for a container, by [_gather_dependencies] and
    by the expression of the constructor that calls it, never holds the
    container itself and only holds containers of the play. *)
Theorem C6_dependency_exclusion (E : Entities) (cs : list Container)
    (fwd respect : bool) (c : Container) :
  (∃ g, _gather_dependencies E cs fwd c = Ok g
        ∧ (c ∉ g) ∧ g ⊆ list_to_set cs ∖ {[ c ]})
  ∧ (∃ d, dependencies_of E cs fwd respect c = Ok d
          ∧ (c ∉ d) ∧ d ⊆ list_to_set cs ∖ {[ c ]}).
Proof.
  split.
  - eexists. split; [apply gather_one_level|]. set_solver.
  - eexists. split; [apply dependencies_of_spec|].
    destruct respect; set_solver.
Qed.

(** C8.  With [respect_dependencies] disabled, as [Status] constructs its
    play, every entry of the dict is the empty set, the satisfied
    predicate holds for every container of the play whatever [done] is,
    and a worker that tests it leaves the wait loop at once. *)
Theorem C8_status_has_no_dependencies (E : Entities) (cs : list Container) :
  ∃ p, Status__init__ E cs = Ok p
    ∧ (∀ k D, _dependencies p !! k = Some D → D = ∅)
    ∧ (∀ c, c ∈ cs → _dependencies p !! name E c = Some ∅)
    ∧ (∀ self c, _dependencies self = _dependencies p → c ∈ cs →
                 _satisfied E self c = Ok true)
    ∧ (∀ self t w, _dependencies self = _dependencies p →
                   task_container (task w) ∈ cs → pc w = WTestSatisfied →
                   act E t self w = Some (self, WRelease, [], false)).
Proof.
  unfold Status__init__.
  destruct (init_total E cs true false) as [p Hp]. exists p.
  assert (∀ k D, _dependencies p !! k = Some D → D = ∅) as Hempty.
  { intros k D Hk. destruct (init_lookup _ _ _ _ _ _ _ Hp Hk) as (c & _ & _ & Hd).
    rewrite dependencies_of_spec in Hd. by simplify_eq. }
  assert (∀ c, c ∈ cs → _dependencies p !! name E c = Some ∅) as Hin.
  { intros c Hc. destruct (init_is_Some _ _ _ _ _ _ Hp Hc) as [D HD].
    by rewrite HD, (Hempty _ _ HD). }
  assert (∀ self c, _dependencies self = _dependencies p → c ∈ cs →
                    _satisfied E self c = Ok true) as Hsat.
  { intros self c Hd Hc. unfold _satisfied. rewrite Hd, (Hin _ Hc).
    f_equal. apply bool_decide_eq_true. apply size_empty_iff. set_solver. }
  split_and!; try done.
  intros self t w Hd Hc Hpc. unfold act. by rewrite Hpc, (Hsat _ _ Hd Hc).
Qed.

Lemma C8_status_has_no_dependencies_witness :
  ∃ p, Status__init__ chain [0; 1; 2] = Ok p
       ∧ _dependencies p !! "C" = Some ∅
       ∧ _satisfied chain p 2 = Ok true.
Proof.
  destruct (C8_status_has_no_dependencies chain [0; 1; 2])
    as (p & Hp & _ & Hin & Hsat & _).
  exists p. split; [done|]. split.
  - apply (Hin 2). set_solver.
  - apply Hsat; [done|set_solver].
Defined.

(** C10.  [_satisfied] gives a boolean for every container that was handed
    to the constructor; for a container whose name is not a key of the
    dict the subscript raises [KeyError], and the worker of a task on such
    a container dies of it in its wait loop. *)
Theorem C10_satisfied_needs_a_registered_name (E : Entities)
    (cs : list Container) (fwd respect : bool) (p self : Play)
    (c : Container) :
  __init__ E cs fwd respect = Ok p →
  _dependencies self = _dependencies p →
  (c ∈ cs → ∃ b, _satisfied E self c = Ok b)
  ∧ (name E c ∉ name E <$> cs →
     _satisfied E self c = Raise KeyError
     ∧ ∀ t w, task_container (task w) = c → pc w = WTestSatisfied →
              act E t self w = Some (self, WDied KeyError, [], false)).
Proof.
  intros Hp Hd. split.
  - intros Hc. destruct (init_is_Some _ _ _ _ _ _ Hp Hc) as [D HD].
    unfold _satisfied. rewrite Hd, HD. eauto.
  - intros Hn.
    assert (_dependencies self !! name E c = None) as Hnone.
    { rewrite Hd. apply eq_None_not_Some. intros [D HD].
      destruct (init_lookup _ _ _ _ _ _ _ Hp HD) as (c' & Hc' & Hname & _).
      apply Hn. rewrite <- Hname. by apply list_elem_of_fmap_2. }
    assert (_satisfied E self c = Raise KeyError) as Hsat.
    { unfold _satisfied. by rewrite Hnone. }
    split; [done|]. intros t w <- Hpc. unfold act. by rewrite Hpc, Hsat.
Qed.

Lemma C10_satisfied_needs_a_registered_name_witness :
  ∃ p, __init__ chain [0; 1] true true = Ok p
       ∧ (∃ b, _satisfied chain p 1 = Ok b)
       ∧ _satisfied chain p 2 = Raise KeyError.
Proof.
  destruct (init_total chain [0; 1] true true) as [p Hp]. exists p.
  split; [done|].
  destruct (C10_satisfied_needs_a_registered_name chain [0; 1] true true
              p p 1 Hp eq_refl) as [Hin _].
  destruct (C10_satisfied_needs_a_registered_name chain [0; 1] true true
              p p 2 Hp eq_refl) as [_ Hout].
  split.
  - apply Hin. set_solver.
  - apply Hout. vm_compute. intros Hn.
    repeat (apply elem_of_cons in Hn as [Hn|Hn]; [discriminate|]).
    by apply elem_of_nil in Hn.
Defined.

(** ** The claims about the play engine *)

Section EngineClaims.
Context (E : Entities) (Q : Queries).

(** C7.  Along every run, [done] only grows and an error slot that holds a
    value keeps holding one. *)
Theorem C7_done_grows_error_stays (acts : list Action) (s s' : State) :
  run E Q acts s = Some s' →
  _done (self s) ⊆ _done (self s')
  ∧ (is_Some (_error (self s)) → is_Some (_error (self s'))).
Proof. intros Hrun. by destruct (run_advances E Q _ _ _ Hrun) as (_ & ? & ?). Qed.


(** C3, as the code has it.  When the action of a worker raises, its
    handler stores the failure in the error slot whatever the slot holds:
    two statements later the slot holds this failure, and [done] is as it
    was. *)
Theorem C3_failure_is_stored_unconditionally (s : State) (t : Tid)
    (w : Worker) (e : Exception) :
  workers s !! t = Some w →
  pc w = WRunning →
  task_run (task w) = Raise e →
  ∃ s', run E Q [Work t; Work t] s = Some s'
        ∧ _error (self s') = Some (Caught e)
        ∧ _done (self s') = _done (self s).
Proof.
  intros Hw Hpc Hrun. pose proof (lookup_lt_Some _ _ _ Hw) as Hlt.
  eexists. split; [|split].
  - erewrite run_step;
      [|by apply (step_Work E Q t s w);
           [|unfold act; rewrite Hpc, Hrun]].
    erewrite run_step; [done|].
    apply step_Work; [simpl; by rewrite list_lookup_insert_eq|done].
  - done.
  - done.
Qed.

Lemma wake_not_waiting w : pc (wake w) ≠ WWait.
Proof. unfold wake. by destruct (pc w) eqn:Hpc; simpl; rewrite ?Hpc. Qed.

(** C4, as the code has it.  A worker that has left [act] has called
    [notifyAll] exactly when it left through the [finally] block, that is
    after its action returned or raised; on the abort path it returns
    without.  The call is made holding the condition's lock and leaves no
    worker blocked in [wait]. *)
Theorem C4_notify_unless_aborted (p : Play) (d : Driver)
    (acts : list Action) (s : State) (t : Tid) (w : Worker) :
  run E Q acts (entered p d) = Some s →
  workers s !! t = Some w →
  (∀ path, pc w = WExit path →
           (NotifyAll (WorkerThread t) ∈ output s ↔ path ≠ ViaAbort))
  ∧ (∀ path, pc w = WFinallyNotify path →
       _cv (self s) = Some (WorkerThread t)
       ∧ ∃ s', step E Q (Work t) s = Some s'
               ∧ NotifyAll (WorkerThread t) ∈ output s'
               ∧ ∀ t' w', workers s' !! t' = Some w' → pc w' ≠ WWait).
Proof.
  intros Hrun Hw. split.
  - intros path Hpc.
    destruct (run_notify E Q _ _ _ _ Hrun) as [_ Hn]. rewrite Hn. split.
    + intros (w' & Hw' & Hnot) ->. assert (w' = w) as -> by congruence.
      by rewrite Hpc in Hnot.
    + intros Hpath. exists w. split; [done|]. rewrite Hpc.
      by destruct path.
  - intros path Hpc. split.
    + destruct (run_monitor E Q _ _ _ _ Hrun) as [Hmon _].
      apply (Hmon _ _ Hw). by rewrite Hpc.
    + eexists. split;
        [apply (step_Work E Q t s w); [done|unfold act; by rewrite Hpc]|].
      simpl. split.
      * apply elem_of_app. right. by apply list_elem_of_singleton.
      * intros t' w'. rewrite list_lookup_fmap. intros Hw'.
        apply fmap_Some in Hw' as (w0 & _ & ->). apply wake_not_waiting.
Qed.

End EngineClaims.

(** *** The engine on the concrete deployment *)

(** Evaluates a run on closed inputs. *)
Ltac evaluate := vm_compute; reflexivity.

Lemma C7_done_grows_error_stays_witness :
  ∃ s0 s s', start_A_D = Ok s0
    ∧ run chain probes first_failure s0 = Some s
    ∧ run chain probes [Work 1; Work 1] s = Some s'
    ∧ _done (self s) ⊆ _done (self s')
    ∧ is_Some (_error (self s')).
Proof.
  eexists _, _, _. split; [evaluate|]. split; [evaluate|].
  match goal with
  | |- ?R ∧ _ => assert R as Hrun by evaluate
  end.
  split; [exact Hrun|].
  destruct (C7_done_grows_error_stays chain probes _ _ _ Hrun) as [Hd He].
  split; [exact Hd|]. apply He. eexists. evaluate.
Defined.


(** C3 as stated fails: the worker of [A] has stored its failure, and the
    failure of the worker of [D], which was already inside its action,
    replaces it. *)
Lemma C3_later_failure_overwrites :
  ∃ s0 s s', start_A_D = Ok s0
    ∧ run chain probes first_failure s0 = Some s
    ∧ _error (self s) = Some (Caught (Failure "A failed"))
    ∧ run chain probes [Work 1; Work 1] s = Some s'
    ∧ _error (self s') = Some (Caught (Failure "D failed")).
Proof.
  eexists _, _, _. split; [evaluate|]. split; [evaluate|].
  split; [evaluate|]. split; evaluate.
Qed.

Lemma C3_failure_is_stored_unconditionally_witness :
  ∃ s0 s s', start_A_D = Ok s0
    ∧ run chain probes first_failure s0 = Some s
    ∧ run chain probes [Work 1; Work 1] s = Some s'
    ∧ _error (self s') = Some (Caught (Failure "D failed")).
Proof.
  eexists _, _.
  match goal with
  | |- ∃ s', ?I ∧ ?R ∧ _ =>
      assert I as Hinit by evaluate; assert R as Hrun by evaluate
  end.
  match type of Hrun with
  | _ = Some ?s =>
      assert (∃ w, workers s !! 1 = Some w ∧ pc w = WRunning
                   ∧ task_run (task w) = Raise (Failure "D failed"))
        as (w & Hw & Hpc & Hraise)
        by (eexists; split_and!; evaluate)
  end.
  destruct (C3_failure_is_stored_unconditionally chain probes _ _ _ _
              Hw Hpc Hraise) as (s' & Hrun' & Herr & _).
  exists s'. split_and!; [exact Hinit|exact Hrun|exact Hrun'|exact Herr].
Defined.

(** C4 as stated fails on the abort path: the worker of [B] sees the error
    of [A], commits [aborted!] and returns; it has not called
    [notifyAll]. *)
Lemma C4_abort_returns_without_notify :
  ∃ s0 s w, start_A_B = Ok s0
    ∧ run chain probes abort_of_second s0 = Some s
    ∧ workers s !! 1 = Some w
    ∧ pc w = WExit ViaAbort
    ∧ NotifyAll (WorkerThread 1) ∉ output s.
Proof.
  eexists _, _, _. split; [evaluate|]. split; [evaluate|].
  split; [evaluate|]. split; [evaluate|].
  vm_compute. intros Hin.
  repeat (apply elem_of_cons in Hin as [Hin|Hin]; [discriminate|]).
  by apply elem_of_nil in Hin.
Qed.

Lemma C4_notify_unless_aborted_witness :
  ∃ p d s w, start_A_B = Ok (entered p d)
    ∧ run chain probes (abort_of_second ++ replicate 3 (Work 0))
        (entered p d) = Some s
    ∧ workers s !! 0 = Some w
    ∧ pc w = WExit ViaFailure
    ∧ NotifyAll (WorkerThread 0) ∈ output s.
Proof.
  eexists _, _, _, _.
  match goal with
  | |- ?I ∧ ?R ∧ ?W ∧ ?P ∧ _ =>
      assert I as Hinit by evaluate;
      assert R as Hrun by evaluate;
      assert W as Hw by evaluate;
      assert P as Hpc by evaluate
  end.
  destruct (C4_notify_unless_aborted chain probes _ _ _ _ _ _ Hrun Hw)
    as [Hexit _].
  split_and!; [exact Hinit|exact Hrun|exact Hw|exact Hpc|].
  by apply (Hexit _ Hpc).
Defined.



(** ** [FullStatus]: the sequential walk *)

Section FullStatusFacts.
Context (E : Entities) (Q : Queries).


(** The handler of the loop body: what one iteration writes, by the way
    its [try] body ends. *)
Lemma inspect_handler (order : nat) (c : Container) :
  match inspect_try Q c (Row order c) with
  | (o, out, Ok _) => inspect Q order c = out ++ [Commit o Newline]
  | (o, out, Raise _) =>
      inspect Q order c = out ++ [Commit o HostDown; Commit o Newline]
  end.
Proof.
  unfold inspect. destruct (inspect_try Q c (Row order c)) as [[o out] [|e]].
  - done.
  - by rewrite <- app_assoc.
Qed.

End FullStatusFacts.

(** ** Further properties of the dependency resolution *)

Section MoreDependencyFacts.
Context (E : Entities).

(** X1.  [_gather_dependencies] always returns ([result.remove] finds the
    container), and what it returns are the other containers of the play
    that belong to a service one edge away from the container's service. *)
Theorem X1_gather_returns_direct_members (cs : list Container) (fwd : bool)
    (c : Container) :
  ∃ g, _gather_dependencies E cs fwd c = Ok g
       ∧ ∀ d, d ∈ g ↔ d ≠ c ∧ d ∈ cs
                      ∧ ∃ s, s ∈ direction E fwd c ∧ d ∈ containers E s.
Proof.
  eexists. split; [apply gather_one_level|]. intros d.
  rewrite elem_of_difference, elem_of_intersection, elem_of_flatten,
    elem_of_list_to_set, elem_of_singleton.
  tauto.
Qed.

(** X2.  When [needed_for] is the inverse of [requires] and the containers of
    the play are members of exactly their own service, the backward play
    waits in the mirrored direction: [d] is gathered for [c] forward
    exactly when [c] is gathered for [d] backward. *)
Theorem X2_backward_mirrors_forward (cs : list Container) (c d : Container)
    (gf gb : gset Container) :
  (∀ s s', s' ∈ requires E s ↔ s ∈ needed_for E s') →
  (∀ x s, x ∈ cs → x ∈ containers E s ↔ service E x = s) →
  c ∈ cs → d ∈ cs →
  _gather_dependencies E cs true c = Ok gf →
  _gather_dependencies E cs false d = Ok gb →
  d ∈ gf ↔ c ∈ gb.
Proof.
  intros Hinv Hmem Hc Hd Hgf Hgb.
  rewrite (elem_of_gather E _ _ _ _ _ Hgf), (elem_of_gather E _ _ _ _ _ Hgb).
  unfold depends_on, direction. rewrite !elem_of_list_to_set. split.
  - intros [[_ (s & Hs & Hds)] Hne]. split; [split; [done|]|done].
    apply (Hmem _ _ Hd) in Hds as <-. exists (service E c).
    split; [by apply Hinv|]. by apply (Hmem _ _ Hc).
  - intros [[_ (s & Hs & Hcs)] Hne]. split; [split; [done|]|done].
    apply (Hmem _ _ Hc) in Hcs as <-. exists (service E d).
    split; [by apply Hinv|]. by apply (Hmem _ _ Hd).
Qed.

Lemma build_dependencies_other cs fwd respect todo acc deps k :
  build_dependencies E cs fwd respect todo acc = Ok deps →
  k ∉ name E <$> todo → deps !! k = acc !! k.
Proof.
  revert acc. induction todo as [|c todo IH]; intros acc; simpl.
  - by intros [= <-].
  - rewrite dependencies_of_spec. simpl. intros Hb Hk.
    apply not_elem_of_cons in Hk as [Hne Hk].
    rewrite (IH _ Hb Hk). by rewrite lookup_insert_ne.
Qed.

Lemma build_dependencies_last cs fwd respect l1 c l2 acc deps :
  build_dependencies E cs fwd respect (l1 ++ c :: l2) acc = Ok deps →
  name E c ∉ name E <$> l2 →
  ∃ D, dependencies_of E cs fwd respect c = Ok D
       ∧ deps !! name E c = Some D.
Proof.
  revert acc. induction l1 as [|c1 l1 IH]; intros acc; simpl.
  - rewrite dependencies_of_spec. simpl. intros Hb Hk.
    eexists. split; [done|].
    rewrite (build_dependencies_other _ _ _ _ _ _ _ Hb Hk).
    by rewrite lookup_insert_eq.
  - rewrite (dependencies_of_spec E cs fwd respect c1). simpl. apply IH.
Qed.

(** X3.  The constructor always returns; the keys of its dict are the names of
    the containers, and under a name the dict holds the set computed for
    the last container of the list with that name. *)
Theorem X3_dict_keys_and_last_wins (cs : list Container)
    (fwd respect : bool) :
  ∃ p, __init__ E cs fwd respect = Ok p
    ∧ dom (_dependencies p) = list_to_set (name E <$> cs)
    ∧ ∀ l1 c l2, cs = l1 ++ c :: l2 → name E c ∉ name E <$> l2 →
        ∃ D, dependencies_of E cs fwd respect c = Ok D
             ∧ _dependencies p !! name E c = Some D.
Proof.
  destruct (init_total E cs fwd respect) as [p Hp]. exists p.
  split; [done|].
  destruct (init_fields _ _ _ _ _ Hp) as (_ & _ & _ & _ & _ & _ & Hb).
  split.
  - apply set_eq. intros k.
    rewrite elem_of_dom, (build_dependencies_dom _ _ _ _ _ _ _ _ Hb),
      elem_of_list_to_set, list_elem_of_fmap.
    split.
    + intros [[D HD]|(c & ? & ?)]; [by rewrite lookup_empty in HD|].
      by exists c.
    + intros (c & ? & ?). right. by exists c.
  - intros l1 c l2 Hcs Hlast. rewrite Hcs in Hb at 2.
    by eapply build_dependencies_last.
Qed.

Lemma NoDup_fmap_eq {A B} (f : A → B) (l : list A) x y :
  NoDup (f <$> l) → x ∈ l → y ∈ l → f x = f y → x = y.
Proof.
  induction l as [|a l IH]; simpl; [by intros _ ?%elem_of_nil|].
  rewrite NoDup_cons. intros [Ha Hnd] Hx Hy Heq.
  apply elem_of_cons in Hx as [->|Hx]; apply elem_of_cons in Hy as [->|Hy].
  - done.
  - destruct Ha. rewrite Heq. by apply list_elem_of_fmap_2.
  - destruct Ha. rewrite <- Heq. by apply list_elem_of_fmap_2.
  - by apply IH.
Qed.

(** X4.  When the names of the containers of a play are pairwise different,
    the dict entry under a container's name never holds that container
    and only holds other containers of the play. *)
Theorem X4_dict_entry_excludes_its_container (cs : list Container)
    (fwd respect : bool) (p : Play) (c : Container) (D : gset Container) :
  __init__ E cs fwd respect = Ok p →
  NoDup (name E <$> cs) →
  c ∈ cs →
  _dependencies p !! name E c = Some D →
  (c ∉ D) ∧ D ⊆ list_to_set cs ∖ {[ c ]}.
Proof.
  intros Hp Hnd Hc HD.
  destruct (init_lookup _ _ _ _ _ _ _ Hp HD) as (c' & Hc' & Hname & Hd).
  assert (c' = c) as -> by (by eapply NoDup_fmap_eq).
  rewrite dependencies_of_spec in Hd. simplify_eq.
  destruct respect; set_solver.
Qed.
End MoreDependencyFacts.

Lemma X3_dict_keys_and_last_wins_witness :
  ∃ p D, __init__ chain [0; 1; 2] true true = Ok p
    ∧ dependencies_of chain [0; 1; 2] true true 1 = Ok D
    ∧ _dependencies p !! "B" = Some D.
Proof.
  destruct (X3_dict_keys_and_last_wins chain [0; 1; 2] true true)
    as (p & Hp & _ & Hlast).
  destruct (Hlast [0] 1 [2] eq_refl) as (D & HD & Hk).
  { vm_compute. intros Hn.
    repeat (apply elem_of_cons in Hn as [Hn|Hn]; [discriminate|]).
    by apply elem_of_nil in Hn. }
  by exists p, D.
Defined.

Lemma X2_backward_mirrors_forward_witness :
  ∃ gf gb, _gather_dependencies chain [0; 1; 2] true 1 = Ok gf
    ∧ _gather_dependencies chain [0; 1; 2] false 0 = Ok gb
    ∧ (0 ∈ gf ↔ 1 ∈ gb).
Proof.
  eexists _, _.
  match goal with
  | |- ?F ∧ ?B ∧ _ => assert F as Hf by evaluate; assert B as Hb by evaluate
  end.
  split_and!; [exact Hf|exact Hb|].
  apply (X2_backward_mirrors_forward chain [0; 1; 2] 1 0); try done.
  - intros s s'.
    destruct s as [|[|[|s]]], s' as [|[|[|s']]]; simpl; set_solver by lia.
  - intros x s Hx. simpl. case_decide; set_solver by lia.
  - set_solver.
  - set_solver.
Defined.

Lemma X4_dict_entry_excludes_its_container_witness :
  ∃ p D, __init__ chain [0; 1; 2] true true = Ok p
    ∧ _dependencies p !! "C" = Some D
    ∧ 2 ∉ D.
Proof.
  eexists _, _.
  match goal with
  | |- ?I ∧ ?L ∧ _ => assert I as Hp by evaluate; assert L as HD by evaluate
  end.
  split_and!; [exact Hp|exact HD|].
  refine (proj1 (X4_dict_entry_excludes_its_container chain [0; 1; 2]
                   true true _ 2 _ Hp _ _ HD)).
  - vm_compute. repeat constructor; intros Hn;
      repeat (apply elem_of_cons in Hn as [Hn|Hn]; [discriminate|]);
      by apply elem_of_nil in Hn.
  - set_solver.
Defined.

(** ** Further properties of the play engine *)

Section MoreEngineFacts.
Context (E : Entities) (Q : Queries).

Lemma worker_eta (w w' : Worker) :
  task w' = task w → w' = set_pc w (pc w').
Proof. destruct w, w'. simpl. by intros ->. Qed.

(** A property of the single workers is an invariant when it survives the
    progress of the play object, a wake-up, the worker's own statements,
    and holds for a thread that has just been started. *)
Lemma worker_invariant_step (P : Play → Worker → Prop) a s s' :
  (∀ self self' w, advances self self' → P self w → P self' w) →
  (∀ self w, pc w = WWait → P self w → P self (set_pc w WWoken)) →
  (∀ t self w self' pc' out n,
     act E t self w = Some (self', pc', out, n) →
     P self w → P self' (set_pc w pc')) →
  (∀ self task, P self {| task := task; pc := WPending |}) →
  (∀ t w, workers s !! t = Some w → P (self s) w) →
  step E Q a s = Some s' →
  ∀ t w, workers s' !! t = Some w → P (self s') w.
Proof.
  intros Hadv Hwake Hact Hnew Hinv Hstep t w' Hw'.
  pose proof (step_advances E Q _ _ _ Hstep) as Hprog.
  destruct (step_worker E Q _ _ _ _ _ Hstep Hw')
    as [(w & Hw & Htask & [(_ & [Hpc|[Hwait Hwoken]])|(-> & out & n & Ha)])
       |(_ & _ & Hpc & _)].
  - rewrite (worker_eta _ _ Htask), Hpc.
    replace (set_pc w (pc w)) with w by (by destruct w).
    eapply Hadv; [done|]. by eapply Hinv.
  - rewrite (worker_eta _ _ Htask), Hwoken. apply Hwake; [done|].
    eapply Hadv; [done|]. by eapply Hinv.
  - rewrite (worker_eta _ _ Htask). eapply Hact; [done|]. by eapply Hinv.
  - destruct w' as [tk p']. simpl in Hpc. subst p'. apply Hnew.
Qed.

Lemma outcome_inv_step a s s' :
  outcome_inv E s → step E Q a s = Some s' → outcome_inv E s'.
Proof.
  intros Hinv Hstep. unfold outcome_inv.
  eapply (worker_invariant_step (outcome E)); [| | | |exact Hinv|exact Hstep].
  - intros self self' w (Hd & Hdone & Herr). unfold outcome. rewrite Hd.
    destruct (pc w) as [| | | | | | | | | | | | | |p|p|p|p|]; try done;
      try destruct p; try done; intuition (auto; set_solver).
  - intros self w Hpc _. by unfold outcome.
  - intros t self w self' pc' out n Ha Ho. unfold act, acquire in Ha.
    unfold outcome in *. simpl.
    destruct (pc w) as [| | | | | | | | | | | | | |p|p|p|p|] eqn:Hpc;
      repeat case_inner; simplify_option_eq; simpl in *; try done;
      try (by apply truthy_is_Some); try (by destruct p);
      try (split; [done|set_solver]); try (split; [eauto|eauto]).
    all: try (unfold _satisfied in *; repeat case_inner; by simplify_eq).
    by destruct a0.
  - intros self tk. by unfold outcome.
Qed.

Lemma run_outcome p d acts s :
  run E Q acts (entered p d) = Some s → outcome_inv E s.
Proof.
  apply run_invariant; [apply outcome_inv_step|].
  intros t w Hw. simpl in Hw. by rewrite lookup_nil in Hw.
Qed.


(** *** The lock of the condition *)








(** *** A task on a container the play does not know *)




(** *** Abort propagation *)

Lemma act_runs_task t self w self' pc' out n t' c :
  act E t self w = Some (self', pc', out, n) →
  RunTask t' c ∈ out → t' = t ∧ pc w = WRun.
Proof.
  unfold act, acquire. intros H.
  destruct (pc w); repeat case_inner; simplify_option_eq;
    rewrite ?elem_of_cons, ?elem_of_nil; intros Hev;
    intuition (try discriminate; congruence).
Qed.

Lemma main_step_no_run self ws m self' ws' m' out n t c :
  main_step Q self ws m = Some (self', ws', m', out, n) →
  RunTask t c ∉ out.
Proof.
  unfold main_step, acquire, register. intros H Hin.
  assert (∀ order c', RunTask t c ∉ inspect Q order c') as Hrows.
  { intros order c' Hev. pose proof (inspect_rows Q order c') as Hall.
    rewrite Forall_forall in Hall. by apply Hall in Hev. }
  destruct m; repeat case_inner; simplify_option_eq;
    try (by apply Hrows in Hin);
    rewrite ?elem_of_cons, ?elem_of_nil in Hin; intuition discriminate.
Qed.

Lemma step_runs_task a s s' t c :
  step E Q a s = Some s' →
  RunTask t c ∈ output s' →
  RunTask t c ∈ output s
  ∨ (a = Work t ∧ ∃ w, workers s !! t = Some w ∧ pc w = WRun).
Proof.
  intros Hstep. destruct (step_output E Q _ _ _ Hstep) as (out & -> & Hdet).
  rewrite elem_of_app. intros [?|Hin]; [by left|].
  destruct a as [| |e|t0].
  - destruct Hdet as (ws' & n & Hmain & _).
    by apply (main_step_no_run _ _ _ _ _ _ _ _ t c) in Hmain.
  - destruct Hdet as (-> & _). by apply elem_of_nil in Hin.
  - destruct Hdet as (-> & _). by apply elem_of_nil in Hin.
  - destruct Hdet as (w & pc' & n & Hw & Hact & _).
    destruct (act_runs_task _ _ _ _ _ _ _ _ _ Hact Hin) as [-> Hpc].
    right. eauto.
Qed.

Lemma act_not_started t self w self' pc' out n :
  act E t self w = Some (self', pc', out, n) →
  is_Some (_error self) →
  not_started (pc w) = true → not_started pc' = true.
Proof.
  unfold act, acquire. intros H Herr%truthy_is_Some.
  destruct (pc w); repeat case_inner; simplify_option_eq; simpl in *;
    try done; congruence.
Qed.

Lemma abort_step a s s' t w :
  step E Q a s = Some s' →
  is_Some (_error (self s)) →
  workers s !! t = Some w → not_started (pc w) = true →
  (∃ w', workers s' !! t = Some w' ∧ task w' = task w
         ∧ not_started (pc w') = true)
  ∧ (∀ c, RunTask t c ∈ output s' → RunTask t c ∈ output s).
Proof.
  intros Hstep Herr Hw Hns. split.
  - destruct (step_worker_fwd E Q _ _ _ _ _ Hstep Hw) as [w' Hw'].
    exists w'. split; [done|].
    destruct (step_worker E Q _ _ _ _ _ Hstep Hw')
      as [(w0 & Hw0 & Htask & [(_ & [Hpc|[_ Hpc]])|(-> & out & n & Ha)])
         |(Hnone & _)]; try congruence;
      assert (w0 = w) as -> by congruence; split; try done.
    + by rewrite Hpc.
    + by rewrite Hpc.
    + by eapply act_not_started.
  - intros c Hin.
    destruct (step_runs_task _ _ _ _ _ Hstep Hin)
      as [?|(_ & w0 & Hw0 & Hpc)]; [done|].
    assert (w0 = w) as -> by congruence. by rewrite Hpc in Hns.
Qed.

(** X8.  Once the error slot is set, a worker that has not yet passed its abort
    test never enters its action: in every continuation it is still
    before the action, or has aborted or died, and the output has no new
    start of its task. *)
Theorem X8_abort_propagates (acts : list Action) (s s' : State) (t : Tid)
    (w : Worker) :
  run E Q acts s = Some s' →
  is_Some (_error (self s)) →
  workers s !! t = Some w →
  not_started (pc w) = true →
  (∃ w', workers s' !! t = Some w' ∧ task w' = task w
         ∧ not_started (pc w') = true)
  ∧ (∀ c, RunTask t c ∈ output s' → RunTask t c ∈ output s).
Proof.
  revert s w. induction acts as [|a acts IH]; intros s w; simpl.
  - intros [= <-] _ Hw Hns. split; [by exists w|done].
  - intros Hrun Herr Hw Hns. simplify_option_eq.
    match goal with
    | Hstep : step E Q a s = Some ?s1 |- _ =>
        destruct (abort_step _ _ _ _ _ Hstep Herr Hw Hns)
          as [(w1 & Hw1 & Htask1 & Hns1) Hout1];
        destruct (step_advances E Q _ _ _ Hstep) as (_ & _ & Herr1);
        destruct (IH s1 w1 Hrun (Herr1 Herr) Hw1 Hns1)
          as [(w' & Hw' & Htask' & Hns') Hout']
    end.
    split; [exists w'; split_and!; [done|congruence|done]|auto].
Qed.

(** *** Every action is entered at most once *)

Lemma runs_app t out1 out2 : runs t (out1 ++ out2) = runs t out1 + runs t out2.
Proof. unfold runs. by rewrite filter_app, length_app. Qed.

Lemma runs_zero t out :
  (∀ c, RunTask t c ∉ out) → runs t out = 0.
Proof.
  intros Hno. unfold runs. induction out as [|ev out IH]; [done|].
  rewrite filter_cons. destruct (decide (is_run t ev = true)) as [Hr|Hr].
  - destruct ev; simpl in Hr; try done.
    apply bool_decide_eq_true in Hr as ->. destruct (Hno c). left.
  - apply IH. intros c Hin. apply (Hno c). by right.
Qed.

(** What a statement of a worker adds to the count of its own starts. *)
Lemma act_runs t self w self' pc' out n :
  act E t self w = Some (self', pc', out, n) →
  outcome E self w →
  runs t out + (if entered_action (pc w) then 1 else 0)
  = (if entered_action pc' then 1 else 0).
Proof.
  unfold act, acquire, outcome, runs. intros H Ho.
  destruct (pc w) as [| | | | | | | | | | | | | |p|p|p|p|] eqn:Hpc;
    repeat case_inner; simplify_option_eq; simpl in *; try done.
  rewrite filter_cons, decide_True; [done|].
  simpl. by apply bool_decide_eq_true.
Qed.

Lemma runs_inv_step a s s' :
  outcome_inv E s → runs_inv s → step E Q a s = Some s' → runs_inv s'.
Proof.
  intros Hout [Hin Hfar] Hstep.
  destruct (step_output E Q _ _ _ Hstep) as (out & Hnew & Hdet).
  assert (∀ t, a ≠ Work t → runs t out = 0) as Hother.
  { intros t Hna. apply runs_zero. intros c Hc.
    assert (RunTask t c ∈ output s') as Hc'
      by (rewrite Hnew; apply elem_of_app; by right).
    destruct (step_runs_task _ _ _ _ _ Hstep Hc') as [Hold|[-> _]];
      [|done].
    destruct a as [| |e|t0].
    - destruct Hdet as (ws' & n & Hmain & _).
      by apply (main_step_no_run _ _ _ _ _ _ _ _ t c) in Hmain.
    - destruct Hdet as (-> & _). by apply elem_of_nil in Hc.
    - destruct Hdet as (-> & _). by apply elem_of_nil in Hc.
    - destruct Hdet as (w & pc' & n & Hw & Hact & _).
      destruct (act_runs_task _ _ _ _ _ _ _ _ _ Hact Hc) as [-> _].
      done. }
  split.
  - intros t w' Hw'. rewrite Hnew, runs_app.
    destruct (step_worker E Q _ _ _ _ _ Hstep Hw')
      as [(w & Hw & Htask & [(Hna & Hc)|(-> & out' & n & Ha)])
         |(Hnone & -> & Hpc & _)].
    + rewrite (Hother _ Hna), (Hin _ _ Hw), Nat.add_0_r.
      by destruct Hc as [->|[-> ->]].
    + destruct Hdet as (w0 & pc' & n0 & Hw0 & Hact & _).
      assert (w0 = w) as -> by congruence.
      rewrite Ha in Hact. simplify_eq.
      rewrite (Hin _ _ Hw0), Nat.add_comm.
      eapply act_runs; [done|]. by eapply Hout.
    + rewrite Hpc. simpl. rewrite Hother by done.
      rewrite Hfar; [done|]. by apply lookup_ge_None.
  - intros t Hge. rewrite Hnew, runs_app.
    pose proof (step_length E Q _ _ _ Hstep) as Hlen.
    rewrite Hfar by lia. apply Hother. intros ->.
    destruct Hdet as (w & _ & _ & Hw & _).
    apply lookup_lt_Some in Hw. lia.
Qed.

Lemma run_runs p d acts s :
  run E Q acts (entered p d) = Some s → runs_inv s.
Proof.
  intros Hrun.
  enough (outcome_inv E s ∧ runs_inv s) as [_ ?] by done.
  eapply (run_invariant E Q (λ x, outcome_inv E x ∧ runs_inv x));
    [| |exact Hrun].
  - intros a s1 s2 [Ho Hr] Hstep. split.
    + by eapply outcome_inv_step.
    + by eapply runs_inv_step.
  - split.
    + intros t w Hw. simpl in Hw. by rewrite lookup_nil in Hw.
    + split; [|done]. intros t w Hw. simpl in Hw.
      by rewrite lookup_nil in Hw.
Qed.

(** X9.  A worker enters its action at most once.  One that has left [act]
    entered it exactly once, unless it left through the abort branch, and
    then it never entered it; after a return of the action the container
    is in [done], after a failure or an abort the error slot is set. *)
Theorem X9_action_entered_at_most_once (p : Play) (d : Driver)
    (acts : list Action) (s : State) (t : Tid) (w : Worker) :
  run E Q acts (entered p d) = Some s →
  workers s !! t = Some w →
  runs t (output s) ≤ 1
  ∧ (pc w = WExit ViaSuccess →
     runs t (output s) = 1 ∧ task_run (task w) = Ok ()
     ∧ task_container (task w) ∈ _done (self s))
  ∧ (pc w = WExit ViaFailure →
     runs t (output s) = 1 ∧ (∃ e, task_run (task w) = Raise e)
     ∧ is_Some (_error (self s)))
  ∧ (pc w = WExit ViaAbort →
     runs t (output s) = 0 ∧ is_Some (_error (self s))).
Proof.
  intros Hrun Hw.
  destruct (run_runs _ _ _ _ Hrun) as [Hin _].
  pose proof (run_outcome _ _ _ _ Hrun _ _ Hw) as Ho.
  rewrite (Hin _ _ Hw). unfold outcome in Ho. split_and!.
  - destruct (entered_action (pc w)); lia.
  - intros Hpc. rewrite Hpc in *. by destruct Ho.
  - intros Hpc. rewrite Hpc in *. by destruct Ho.
  - intros Hpc. rewrite Hpc in *. done.
Qed.

(** *** A play that ends without an error *)







(** *** Registration *)

Lemma fmap_task_notified n (ws : list Worker) :
  task <$> notified n ws = task <$> ws.
Proof.
  unfold notified. destruct n; [|done].
  rewrite <- list_fmap_compose. apply list_fmap_ext.
  intros i w _. apply wake_task.
Qed.

Lemma fmap_task_insert (ws : list Worker) (t : Tid) w pc' :
  ws !! t = Some w → task <$> <[ t := set_pc w pc' ]> ws = task <$> ws.
Proof.
  intros Hw. rewrite list_fmap_insert. simpl.
  apply list_insert_id. by rewrite list_lookup_fmap, Hw.
Qed.

Lemma main_step_registered d self ws m o self' ws' m' out n o' :
  main_step Q self ws m = Some (self', ws', m', out, n) →
  registered_inv d {| self := self; workers := ws; main := m; output := o |} →
  registered_inv d {| self := self'; workers := ws'; main := m';
                      output := o' |}.
Proof.
  unfold main_step, register, acquire, registered_inv. simpl. intros H Hinv.
  destruct m; repeat case_inner; simplify_option_eq; simpl in *;
    rewrite ?app_nil_r in *; try done; try (by destruct (isAlive _)).
  - by rewrite fmap_app, <- app_assoc.
  - exists []. by rewrite app_nil_r.
Qed.

Lemma registered_inv_step d a s s' :
  registered_inv d s → step E Q a s = Some s' → registered_inv d s'.
Proof.
  intros Hinv Hstep.
  destruct (step_output E Q _ _ _ Hstep) as (out & _ & Hdet).
  destruct a as [| |e|t0].
  - destruct Hdet as (ws' & n & Hmain & Hws).
    destruct s as [self ws m o], s' as [self' ws1 m' o']. simpl in *.
    subst ws1.
    pose proof (main_step_registered d _ _ _ o _ _ _ _ _ o' Hmain Hinv)
      as Hreg.
    unfold registered_inv in *. simpl in *.
    by rewrite fmap_task_notified.
  - destruct Hdet as (_ & _ & Hws & Hi). unfold registered_inv in *.
    rewrite Hws.
    destruct (main s) eqn:Hms; simpl in Hi; try done;
      injection Hi as <-; simpl; eauto;
      exists []; by rewrite app_nil_r.
  - destruct Hdet as (_ & _ & Hws & Hi). unfold registered_inv in *.
    rewrite Hws.
    destruct (main s) eqn:Hms; simpl in Hi; try done;
      by injection Hi as <-.
  - destruct Hdet as (w & pc' & n & Hw & Hact & Hm).
    assert (task <$> workers s' = task <$> workers s) as Htasks.
    { simpl in Hstep. rewrite Hw in Hstep. simpl in Hstep.
      rewrite Hact in Hstep. simpl in Hstep. simplify_eq.
      rewrite <- Hstep. simpl.
      by rewrite fmap_task_notified, fmap_task_insert. }
    unfold registered_inv in *. by rewrite Hm, Htasks.
Qed.

(** X11.  [register] starts the threads in the order of the calls: the tasks of
    the started threads, by thread number, are a prefix of the tasks the
    driver registers, and all of them once the controlling thread is in
    [end]; every started thread is in [self._threads]. *)
Theorem X11_threads_follow_registration (p : Play) (d : Driver)
    (acts : list Action) (s : State) :
  _threads p = ∅ →
  run E Q acts (entered p d) = Some s →
  (∃ rest, (task <$> workers s) ++ rest = driver_tasks d)
  ∧ (in_end (main s) = true → task <$> workers s = driver_tasks d)
  ∧ (∀ t, t ∈ _threads (self s) ↔ t < length (workers s)).
Proof.
  intros Hth Hrun.
  assert (registered_inv d s) as Hreg.
  { eapply (run_invariant E Q (registered_inv d)); [| |exact Hrun].
    - intros a s1 s2. apply registered_inv_step.
    - by unfold registered_inv. }
  destruct (run_join E Q _ _ _ _ Hth Hrun) as [Hidx _].
  unfold registered_inv in Hreg. split_and!; [| |done].
  - destruct (main s); eauto; exists []; by rewrite app_nil_r.
  - by destruct (main s).
Qed.

(** *** [end] once the error slot is set *)

Lemma set_cv_release self who :
  _cv self = None → set_cv (set_cv self (Some who)) None = self.
Proof. destruct self. simpl. by intros ->. Qed.

(** One turn of the loop of [end] with the error slot set and the lock
    free: the thread is not polled, the waiters are woken. *)
Lemma end_turn_after_error (s : State) (t : Tid) (ts : list Tid) :
  main s = MFor (t :: ts) →
  truthy (_error (self s)) = true →
  _cv (self s) = None →
  run E Q (replicate 5 Main) s
  = Some {| self := self s; workers := wake <$> workers s;
            main := MFor ts;
            output := output s ++ [NotifyAll MainThread] |}.
Proof.
  intros Hm Herr Hcv.
  destruct s as [[cs fw deps th dn er cv] ws m out]. simpl in *.
  subst m cv. unfold acquire. simpl. rewrite Herr. simpl.
  by rewrite !app_nil_r.
Qed.

(** X13.  With the error slot set and the lock free, [end] runs to its last
    statement in its own steps, five for each thread it still has to
    visit and three more, without waiting for any worker; it writes the
    diagnostic line last, for the value the slot holds. *)
Theorem X13_end_finishes_after_error (ts : list Tid) (s : State) :
  main s = MFor ts →
  truthy (_error (self s)) = true →
  _cv (self s) = None →
  ∃ s' v, run E Q (replicate (5 * length ts + 3) Main) s = Some s'
          ∧ main s' = MReturned
          ∧ self s' = self s
          ∧ _error (self s) = Some v
          ∧ last (output s') = Some (StderrWrite v).
Proof.
  revert s. induction ts as [|t ts IH]; intros s Hm Herr Hcv.
  - destruct (_error (self s)) as [v|] eqn:Hv; [|done].
    destruct s as [self ws m out]. simpl in *. subst m.
    eexists _, v. simpl. rewrite Hv. simpl. rewrite Herr.
    split_and!; try done. simpl. by rewrite last_snoc.
  - replace (5 * length (t :: ts) + 3) with (5 + (5 * length ts + 3))
      by (simpl; lia).
    rewrite replicate_add, run_app, (end_turn_after_error _ _ _ Hm Herr Hcv).
    destruct (IH {| self := self s; workers := wake <$> workers s;
                    main := MFor ts;
                    output := output s ++ [NotifyAll MainThread] |}
                eq_refl Herr Hcv) as (s' & v & Hrun & ? & ? & ? & ?).
    exists s', v. split; [exact Hrun|done].
Qed.

(** X14.  A [KeyboardInterrupt] in the join loop is turned into an abort: with
    the lock free, the handler stores ['Manual abort.'] in the error slot,
    the [finally] block wakes every waiter, and the loop goes on to the
    next thread. *)
Theorem X14_interrupt_becomes_manual_abort (s : State) (t : Tid)
    (ts : list Tid) :
  main s = MTestError t ts ∨ main s = MTestAlive t ts ∨ main s = MJoin t ts →
  _cv (self s) = None →
  run E Q [KeyboardInterrupt; Main; Main; Main; Main] s
  = Some {| self := set_error (self s) (Some ManualAbort);
            workers := wake <$> workers s;
            main := MFor ts;
            output := output s ++ [NotifyAll MainThread] |}.
Proof.
  intros Hm Hcv. destruct s as [self ws m out]. simpl in *.
  assert (interrupt m = Some (MManualAbort ts)) as Hi
    by (by destruct Hm as [->|[->| ->]]).
  rewrite Hi. simpl. unfold acquire. simpl. rewrite Hcv. simpl.
  rewrite !app_nil_r. do 2 f_equal. destruct self. simpl in *. by subst.
Qed.

(** X12.  [Restart.run] registers nothing: it prints the header, starts and
    ends the output and returns, with no thread, no error and no
    diagnostic line. *)
Theorem X12_restart_schedules_nothing (cs : list Container) :
  ∃ s0 s, Restart_run E cs = Ok s0
    ∧ run E Q (replicate 5 Main) s0 = Some s
    ∧ main s = MReturned
    ∧ workers s = []
    ∧ _error (self s) = None
    ∧ output s = [PrintHeader; OmStart; OmEnd].
Proof.
  unfold Restart_run.
  destruct (init_total E cs true true) as [p Hp]. rewrite Hp.
  destruct (init_fields _ _ _ _ _ Hp) as (_ & _ & Hth & _ & Herr & _).
  eexists _, _. split; [done|]. simpl. rewrite Hth, elements_empty. simpl.
  rewrite Herr. simpl. by rewrite ?Herr.
Qed.
End MoreEngineFacts.

(** *** The further properties on the concrete deployment *)




Lemma X8_abort_propagates_witness :
  ∃ s0 s s' w w', start_A_B = Ok s0
    ∧ run chain probes failure_before_second s0 = Some s
    ∧ workers s !! 1 = Some w
    ∧ run chain probes (replicate 7 (Work 1)) s = Some s'
    ∧ workers s' !! 1 = Some w'
    ∧ not_started (pc w') = true.
Proof.
  eexists _, _, _, _.
  match goal with
  | |- ∃ w', ?I ∧ ?R ∧ ?W ∧ ?R' ∧ _ =>
      assert I as Hinit by evaluate;
      assert R as Hrun by evaluate;
      assert W as Hw by evaluate;
      assert R' as Hrun' by evaluate
  end.
  pose proof (λ He Hns, proj1 (X8_abort_propagates chain probes _ _ _ 1 _
                                 Hrun' He Hw Hns)) as Hab.
  destruct Hab as (w' & Hw' & _ & Hns'); [eexists; evaluate|evaluate|].
  exists w'. split_and!; [exact Hinit|exact Hrun|exact Hw|exact Hrun'| |].
  - exact Hw'.
  - exact Hns'.
Defined.

Lemma X9_action_entered_at_most_once_witness :
  ∃ p d s w, start_A_B = Ok (entered p d)
    ∧ run chain probes abort_of_second (entered p d) = Some s
    ∧ workers s !! 1 = Some w
    ∧ pc w = WExit ViaAbort
    ∧ runs 1 (output s) = 0.
Proof.
  eexists _, _, _, _.
  match goal with
  | |- ?I ∧ ?R ∧ ?W ∧ ?P ∧ _ =>
      assert I as Hinit by evaluate;
      assert R as Hrun by evaluate;
      assert W as Hw by evaluate;
      assert P as Hpc by evaluate
  end.
  destruct (X9_action_entered_at_most_once chain probes _ _ _ _ _ _
              Hrun Hw) as (_ & _ & _ & Habort).
  split_and!; [exact Hinit|exact Hrun|exact Hw|exact Hpc|].
  exact (proj1 (Habort Hpc)).
Defined.


Lemma X11_threads_follow_registration_witness :
  ∃ p d s, start_A_D = Ok (entered p d)
    ∧ run chain probes polling (entered p d) = Some s
    ∧ task <$> workers s = driver_tasks d.
Proof.
  eexists _, _, _.
  match goal with
  | |- ?I ∧ ?R ∧ _ => assert I as Hinit by evaluate; assert R as Hrun by evaluate
  end.
  split_and!; [exact Hinit|exact Hrun|].
  pose proof (λ Hth, proj1 (proj2 (X11_threads_follow_registration
                                     chain probes _ _ _ _ Hth Hrun)))
    as Hall.
  apply Hall; evaluate.
Defined.

Lemma X13_end_finishes_after_error_witness :
  ∃ s0 s s', start_A_D = Ok s0
    ∧ run chain probes (first_failure ++ [Main]) s0 = Some s
    ∧ run chain probes (replicate 13 Main) s = Some s'
    ∧ main s' = MReturned
    ∧ last (output s') = Some (StderrWrite (Caught (Failure "A failed"))).
Proof.
  eexists _, _.
  match goal with
  | |- ∃ s', ?I ∧ ?R ∧ _ =>
      assert I as Hinit by evaluate; assert R as Hrun by evaluate
  end.
  match type of Hrun with
  | _ = Some ?s =>
      destruct (X13_end_finishes_after_error chain probes [1; 0] s)
        as (s' & v & Hrun' & Hm & _ & Hv & Hlast);
        [evaluate|evaluate|evaluate|]
  end.
  exists s'. split_and!; [exact Hinit|exact Hrun|exact Hrun'|exact Hm|].
  rewrite Hlast. f_equal. f_equal.
  apply (inj Some). rewrite <- Hv. evaluate.
Defined.

Lemma X14_interrupt_becomes_manual_abort_witness :
  ∃ s0 s s', start_A_D = Ok s0
    ∧ run chain probes polling s0 = Some s
    ∧ run chain probes [KeyboardInterrupt; Main; Main; Main; Main] s
      = Some s'
    ∧ _error (self s') = Some ManualAbort
    ∧ main s' = MFor [0].
Proof.
  eexists _, _.
  match goal with
  | |- ∃ s', ?I ∧ ?R ∧ _ =>
      assert I as Hinit by evaluate; assert R as Hrun by evaluate
  end.
  match type of Hrun with
  | _ = Some ?s =>
      pose proof (λ Hm Hcv, X14_interrupt_becomes_manual_abort chain probes
                              s 1 [0] Hm Hcv) as Hint
  end.
  eexists. split_and!; [exact Hinit|exact Hrun| | |].
  - apply Hint; [left; evaluate|evaluate].
  - done.
  - done.
Defined.

(** ** Further properties of the [FullStatus] walk and of the drivers *)

Section MoreFullStatusFacts.
Context (E : Entities) (Q : Queries).

Lemma inspect_ports_prefix c items o out :
  ∃ more, (inspect_ports Q c items o out).1.2 = out ++ more
          ∧ Forall is_row more.
Proof.
  revert o out. induction items as [|[n ext] items IH]; intros o out; simpl.
  - exists []. by rewrite app_nil_r.
  - destruct ext as [ext|e]; simpl.
    + destruct (ping_port Q c n); simpl.
      * destruct (IH PortRow (((out ++ [Commit o Newline])
                               ++ [Pending PortRow (PortPending ext n)])
                              ++ [Commit PortRow (PortState a ext n)]))
          as (more & -> & Hrows).
        eexists. rewrite <- !app_assoc. split; [done|].
        repeat constructor. done.
      * eexists. rewrite <- !app_assoc. split; [done|]. by repeat constructor.
    + eexists. split; [done|]. by repeat constructor.
Qed.

Lemma inspect_ports_handle c items o out :
  (inspect_ports Q c items o out).1.1
  = match items with [] => o | _ => PortRow end.
Proof.
  revert o out. induction items as [|[n ext] items IH]; intros o out; simpl;
    [done|].
  destruct ext as [ext|e]; simpl; [|done].
  destruct (ping_port Q c n); simpl; [|done].
  rewrite IH. by destruct items.
Qed.

(** X15.  The rows [FullStatus] writes for one container always begin with the
    pending [checking container...] on the container's own row and end
    with a committed newline, whatever happens in between; the newline
    goes to the container's row, or to the port row once a port has been
    visited. *)
Theorem X15_walk_of_a_container_is_a_closed_block (order : nat)
    (c : Container) :
  ∃ mid o,
    inspect Q order c
    = Pending (Row order c) CheckingContainer :: mid ++ [Commit o Newline]
    ∧ Forall is_row mid
    ∧ (o = Row order c ∨ o = PortRow).
Proof.
  unfold inspect, inspect_try.
  destruct (status Q c) as [st|e]; simpl.
  - destruct (state_label Q c (running_of st)) as [label|e]; simpl.
    + destruct (inspect_ports_prefix c (ports Q c) (Row order c)
                  [Pending (Row order c) CheckingContainer;
                   Commit (Row order c) (ContainerState (running_of st) label);
                   Pending (Row order c) CheckingService;
                   Commit (Row order c) (ServiceState (running_of st))])
        as (more & Hout & Hrows).
      pose proof (inspect_ports_handle c (ports Q c) (Row order c)
                  [Pending (Row order c) CheckingContainer;
                   Commit (Row order c) (ContainerState (running_of st) label);
                   Pending (Row order c) CheckingService;
                   Commit (Row order c) (ServiceState (running_of st))])
        as Hhandle.
      destruct (inspect_ports Q c (ports Q c) _ _) as [[o out] r].
      simpl in *. subst out.
      assert (o = Row order c ∨ o = PortRow) as Ho
        by (rewrite Hhandle; destruct (ports Q c); auto).
      destruct r as [[]|e].
      * exists ([Commit (Row order c) (ContainerState (running_of st) label);
                 Pending (Row order c) CheckingService;
                 Commit (Row order c) (ServiceState (running_of st))]
                ++ more), o.
        split; [done|]. split; [|done].
        apply Forall_app. split; [by repeat constructor|done].
      * exists (([Commit (Row order c) (ContainerState (running_of st) label);
                  Pending (Row order c) CheckingService;
                  Commit (Row order c) (ServiceState (running_of st))]
                 ++ more) ++ [Commit o HostDown]), o.
        split; [by rewrite <- !app_assoc|]. split; [|done].
        rewrite !Forall_app. split_and!; [by repeat constructor|done|].
        by repeat constructor.
    + eexists [_], _. split; [done|]. split; [by repeat constructor|auto].
  - eexists [_], _. split; [done|]. split; [by repeat constructor|auto].
Qed.

(** X16.  The loop of [FullStatus.run] can be cut anywhere: after as many steps
    as the first part of the list has containers, the controlling thread
    has written the rows of that part and stands before the second part
    with the numbering going on where the first part stopped; the rows of
    the whole list are those of the parts, one after the other. *)
Theorem X16_walk_of_a_concatenation (self : Play) (ws : list Worker)
    (out : list Event) (order : nat) (l1 l2 : list Container) :
  run E Q (replicate (length l1) Main)
    {| self := self; workers := ws;
       main := MRun (Inspecting order (l1 ++ l2)); output := out |}
  = Some {| self := self; workers := ws;
            main := MRun (Inspecting (order + length l1) l2);
            output := out ++ walk Q order l1 |}
  ∧ walk Q order (l1 ++ l2)
    = walk Q order l1 ++ walk Q (order + length l1) l2.
Proof.
  split.
  - revert out order. induction l1 as [|c l1 IH]; intros out order; simpl.
    + by rewrite Nat.add_0_r, app_nil_r.
    + rewrite IH. by rewrite <- Nat.add_succ_comm, app_assoc.
  - revert order. induction l1 as [|c l1 IH]; intros order; simpl.
    + by rewrite Nat.add_0_r.
    + by rewrite IH, <- app_assoc, Nat.add_succ_comm.
Qed.

(** X17.  When [container.status()] (or the look-up of its running flag) raises,
    the container gets exactly three rows, all on its own handle: the
    pending check, [host down], and the newline; no port is pinged. *)
Theorem X17_unreachable_host_gets_three_rows (order : nat) (c : Container)
    (e : Exception) :
  status Q c = Raise e →
  inspect Q order c
  = [Pending (Row order c) CheckingContainer;
     Commit (Row order c) HostDown;
     Commit (Row order c) Newline].
Proof. intros Hs. unfold inspect, inspect_try. by rewrite Hs. Qed.

(** X18.  Once the loop over the ports has been entered, [o] is bound to the
    port handle: when a later query raises, [host down] and the closing
    newline are committed on the port row, not on the container's row. *)
Theorem X18_failure_among_ports_is_answered_on_the_port_row (order : nat)
    (c : Container) (st : option bool) (label : string) :
  status Q c = Ok st →
  state_label Q c (running_of st) = Ok label →
  ports Q c ≠ [] →
  ∃ out r, inspect_try Q c (Row order c) = (PortRow, out, r)
    ∧ (∀ e, r = Raise e →
            inspect Q order c
            = out ++ [Commit PortRow HostDown; Commit PortRow Newline]).
Proof.
  intros Hs Hl Hp.
  pose proof (inspect_handler Q order c) as Hh.
  unfold inspect_try in *. rewrite Hs in *. simpl in *. rewrite Hl in *.
  simpl in *.
  match goal with
  | |- context [inspect_ports Q c (ports Q c) ?o ?out] =>
      pose proof (inspect_ports_handle c (ports Q c) o out) as Hhandle;
      destruct (inspect_ports Q c (ports Q c) o out) as [[o' out'] r]
  end.
  simpl in Hhandle. destruct (ports Q c); [done|]. subst o'.
  exists out', r. split; [done|]. by intros e ->.
Qed.
End MoreFullStatusFacts.

Lemma X17_unreachable_host_gets_three_rows_witness :
  inspect probes 2 1
  = [Pending (Row 2 1) CheckingContainer; Commit (Row 2 1) HostDown;
     Commit (Row 2 1) Newline].
Proof.
  apply (X17_unreachable_host_gets_three_rows probes 2 1
           (Failure "connection refused")).
  reflexivity.
Defined.

Lemma X18_failure_among_ports_is_answered_on_the_port_row_witness :
  ∃ out r, inspect_try probes 0 (Row 1 0) = (PortRow, out, r).
Proof.
  destruct (X18_failure_among_ports_is_answered_on_the_port_row probes 1 0
              (Some true) "0123456") as (out & r & H & _);
    [reflexivity|reflexivity|discriminate|].
  by exists out, r.
Defined.

(** ** The tasks the drivers register *)

Section DriverFacts.
Context (action : Container → Result ()).

Lemma row_tasks_lookup (cs : list Container) (i : nat) :
  row_tasks action cs !! i
  = (λ c, {| task_o := Row (i + 1) c; task_container := c;
             task_run := action c |}) <$> cs !! i.
Proof. unfold row_tasks. by rewrite list_lookup_imap. Qed.

Lemma stop_tasks_lookup (cs : list Container) (i : nat) :
  stop_tasks action cs !! i
  = (λ c, {| task_o := Row (length cs - i) c; task_container := c;
             task_run := action c |}) <$> cs !! i.
Proof. unfold stop_tasks. by rewrite list_lookup_imap. Qed.

(** X19.  [Start], [Status] and [Stop] register one task per container, in list
    order.  [Stop] numbers its rows downwards: given the containers in
    reverse order, as its docstring asks, it shows every container under
    the number it has in [Start]. *)
Theorem X19_stop_numbers_mirror_start (cs : list Container) :
  task_container <$> row_tasks action cs = cs
  ∧ task_container <$> stop_tasks action cs = cs
  ∧ task_o <$> stop_tasks action (reverse cs)
    = reverse (task_o <$> row_tasks action cs).
Proof.
  split_and!.
  - apply list_eq. intros i.
    rewrite list_lookup_fmap, row_tasks_lookup. by destruct (cs !! i).
  - apply list_eq. intros i.
    rewrite list_lookup_fmap, stop_tasks_lookup. by destruct (cs !! i).
  - apply list_eq. intros i.
    rewrite list_lookup_fmap, stop_tasks_lookup, length_reverse.
    destruct (decide (i < length cs)) as [Hlt|Hge].
    + rewrite !reverse_lookup
        by (rewrite ?length_fmap; unfold row_tasks; rewrite ?length_imap; lia).
      rewrite list_lookup_fmap, row_tasks_lookup, length_fmap.
      unfold row_tasks. rewrite length_imap.
      destruct (cs !! (length cs - S i)) as [c|] eqn:Hc; simpl.
      * do 2 f_equal. lia.
      * done.
    + rewrite (lookup_ge_None_2 (reverse cs))
        by (rewrite length_reverse; lia).
      rewrite (lookup_ge_None_2 (reverse _)); [done|].
      rewrite length_reverse, length_fmap. unfold row_tasks.
      rewrite length_imap. lia.
Qed.
End DriverFacts.
